(** * goexch: the token-bucket rate limiter and the client call path

    A shallow embedding of [ratelimiter.go] and [client.go].

    Conventions of the embedding.
    - Go's [int] and [time.Duration] are 64-bit two's-complement integers
      (the 64-bit ports of Go); they are values of [Z] and every arithmetic
      operation of the source is followed by its wrap-around [wrap64].
    - A [time.Time] produced by [time.Now()] carries a monotonic clock
      reading; [Time.Sub] on two such values subtracts the readings and
      saturates at the bounds of [time.Duration].  A [Time] is that reading,
      in nanoseconds.
    - [time.Now()] is the only input a limiter call reads from its
      environment: it is passed to the embedded function as [now].
    - A run-time panic (integer division by zero) is an outcome of its own,
      together with the state the limiter was left in. *)

From Stdlib Require Import ZArith Lia List Bool.
From stdpp Require Import base strings gmap.

Local Open Scope Z_scope.

(** ** Machine integers *)

Module Int64.

Definition min_int : Z := - 2 ^ 63.
Definition max_int : Z := 2 ^ 63 - 1.

Definition in_range (z : Z) : Prop := min_int <= z <= max_int.

(** Two's-complement wrap-around of a mathematical integer to 64 bits. *)
Definition wrap64 (z : Z) : Z := (z + 2 ^ 63) mod 2 ^ 64 - 2 ^ 63.

(** Saturation, as done by [Time.Sub]. *)
Definition saturate (z : Z) : Z :=
  if z <? min_int then min_int
  else if max_int <? z then max_int
  else z.

End Int64.

(** ** Outcomes of a call *)

(** A Go call either returns a value or panics. *)
Inductive outcome (A : Type) : Type :=
| Returned (a : A)
| Panicked.
Arguments Returned {A} a.
Arguments Panicked {A}.

(** ** ratelimiter.go *)

Definition Duration := Z.
Definition Time := Z.

(** [t.Sub(u)] on two monotonic readings. *)
Definition Time_Sub (t u : Time) : Duration := Int64.saturate (t - u).

(** The struct [RateLimiter]; the mutex is modelled in [Module Concurrent]. *)
Record RateLimiter : Type := mkRateLimiter {
  tokens : Z;
  max : Z;
  interval : Duration;
  last : Time
}.

(** [NewRateLimiter(max, interval)], reading [time.Now()] as [now]. *)
Definition NewRateLimiter (max : Z) (interval : Duration) (now : Time)
  : RateLimiter :=
  {| tokens := max; max := max; interval := interval; last := now |}.

(** Line 34: [elapsed := now.Sub(rl.last)]. *)
Definition elapsed_of (rl : RateLimiter) (now : Time) : Duration :=
  Time_Sub now (last rl).

(** Line 38, right-hand side: [int(elapsed / rl.interval)].  Go's integer
    division truncates toward zero and wraps on [min_int / -1]; the
    divisor is checked to be non-zero by the caller. *)
Definition generated (elapsed interval : Duration) : Z :=
  Int64.wrap64 (Z.quot elapsed interval).

(** [rl.Allow()], reading [time.Now()] as [now].  The statements are taken
    in the order of the source: [rl.last] is written before the division,
    so a division by zero leaves [last] updated and [tokens] untouched. *)
Definition Allow (rl : RateLimiter) (now : Time)
  : outcome bool * RateLimiter :=
  let elapsed := elapsed_of rl now in
  let rl1 := {| tokens := tokens rl; max := max rl;
                interval := interval rl; last := now |} in
  if interval rl =? 0 then (Panicked, rl1)
  else
    let t1 := Int64.wrap64 (tokens rl + generated elapsed (interval rl)) in
    let t2 := if max rl <? t1 then max rl else t1 in
    if 0 <? t2 then
      (Returned true,
       {| tokens := Int64.wrap64 (t2 - 1); max := max rl;
          interval := interval rl; last := now |})
    else
      (Returned false,
       {| tokens := t2; max := max rl;
          interval := interval rl; last := now |}).

(** Successive calls on one limiter, one clock reading per call. *)
Fixpoint Allows (rl : RateLimiter) (nows : list Time)
  : list (outcome bool) * RateLimiter :=
  match nows with
  | [] => ([], rl)
  | now :: rest =>
      let '(r, rl') := Allow rl now in
      let '(rs, rl'') := Allows rl' rest in
      (r :: rs, rl'')
  end.

(** The limiter as it stands after each of the successive calls. *)
Fixpoint states_after (rl : RateLimiter) (nows : list Time)
  : list RateLimiter :=
  match nows with
  | [] => []
  | now :: rest =>
      let rl' := snd (Allow rl now) in rl' :: states_after rl' rest
  end.

(** The elapsed time each of the successive calls computes at line 34. *)
Fixpoint elapsed_trace (rl : RateLimiter) (nows : list Time)
  : list Duration :=
  match nows with
  | [] => []
  | now :: rest =>
      elapsed_of rl now :: elapsed_trace (snd (Allow rl now)) rest
  end.

(** A clock that never goes back: each reading is at least the previous. *)
Fixpoint nondecreasing (prev : Time) (nows : list Time) : Prop :=
  match nows with
  | [] => True
  | now :: rest => prev <= now /\ nondecreasing now rest
  end.

(** The last reading of a sequence of calls ([prev] if there is none). *)
Fixpoint final_reading (prev : Time) (nows : list Time) : Time :=
  match nows with
  | [] => prev
  | now :: rest => final_reading now rest
  end.

Definition total (l : list Z) : Z := fold_right Z.add 0 l.

(** The tokens each of the successive calls adds at line 38. *)
Fixpoint generated_trace (rl : RateLimiter) (nows : list Time) : list Z :=
  match nows with
  | [] => []
  | now :: rest =>
      generated (elapsed_of rl now) (interval rl)
      :: generated_trace (snd (Allow rl now)) rest
  end.

(** The data-model invariant of the bucket. *)
Definition bucket_inv (rl : RateLimiter) : Prop :=
  0 <= tokens rl <= max rl.

(** How many of the calls were admitted. *)
Fixpoint admissions (results : list (outcome bool)) : Z :=
  match results with
  | [] => 0
  | Returned true :: rest => 1 + admissions rest
  | _ :: rest => admissions rest
  end.

(** A caller that polls faster than the refill interval: each reading comes
    less than one interval after the previous one. *)
Fixpoint polled_faster (refill : Duration) (prev : Time) (nows : list Time)
  : Prop :=
  match nows with
  | [] => True
  | now :: rest => prev <= now < prev + refill /\ polled_faster refill now rest
  end.

(** ** structs.go *)

Definition CryptoCurrency := string.

Record OrderOptions : Type := mkOrderOptions {
  RefundAddress : string;
  RateMode : string;
  ReferrerID : string;
  FeeOption : string;
  Aggregation : option bool
}.

Record CreateOrderResposnse : Type := mkCreateOrderResposnse {
  OrderID : string
}.

Record Volume : Type := mkVolume { Volume_Volume : string }.

Record GetVolumeResponse : Type := mkGetVolumeResponse {
  vol_Bitcoin : option Volume;
  vol_Btcln : option Volume;
  vol_Dai : option Volume;
  vol_Dash : option Volume;
  vol_Eth : option Volume;
  vol_Litecoin : option Volume;
  vol_Usdc : option Volume;
  vol_Usdt : option Volume;
  vol_Monero : option Volume
}.

Record OrderResponse : Type := mkOrderResponse {
  Created : Z;
  FromAddr : string;
  AmountReceived : option string;
  FromCurrency : CryptoCurrency;
  MaxInput : string;
  MinInput : string;
  NetworkFee : Z;
  Orderid : string;
  Rate : string;
  or_RateMode : string;
  State : string;
  SvcFee : string;
  ToAddress : string;
  AmountSent : option string;
  ToCurrency : CryptoCurrency;
  ReceivedID : option string;
  SentID : option string
}.

Record ResultResponse : Type := mkResultResponse {
  rr_Error : string;
  rr_Result : bool
}.

(** A decoded [interface{}] of [map[string]interface{}]. *)
#[local] Set Warnings "-register-all".
Inductive json : Type :=
| JNull
| JBool (b : bool)
| JNumber (literal : string)
| JString (s : string)
| JArray (items : list json)
| JObject (fields : list (string * json)).

(** ** Errors *)

(** An error value made by the libraries the client calls ([net/http],
    [net/url], [io], the JSON decoder).  Such a value is never the
    package's own sentinel. *)
Inductive lib_error : Type := LibError (msg : string).

(** The [error] values the package handles.  [Errorf format args] is the
    value made by [fmt.Errorf(format, args...)]: no format string of the
    package uses the wrapping verb, so the value is a new error that holds
    its operands only as text. *)
Inductive error : Type :=
| RateLimitExceeded
| Errorf (format : string) (args : list fmt_arg)
| FromLib (e : lib_error)
with fmt_arg : Type :=
| ArgError (e : error)
| ArgInt (z : Z)
| ArgString (s : string).

(** ** The HTTP library, as far as the client uses it *)

Record HttpRequest : Type := mkHttpRequest {
  req_method : string;
  req_url : string;
  req_header : gmap string string;
  req_query : gmap string string
}.

Record HttpResponse : Type := mkHttpResponse {
  StatusCode : Z;
  (** what [io.ReadAll(res.Body)] yields *)
  Body : lib_error + string
}.

Definition RoundTripper : Type := HttpRequest -> lib_error + HttpResponse.

(** [http.Client]: a nil transport stands for the default transport. *)
Record HttpClient : Type := mkHttpClient {
  Transport : option RoundTripper
}.

(** What lies outside the package: the library functions it calls and the
    package-level variables of [net/http] it reads. *)
Record World : Type := mkWorld {
  http_NewRequest : string -> string -> lib_error + HttpRequest;
  http_DefaultTransport : RoundTripper;
  http_DefaultClient : HttpClient;
  Unmarshal_GetVolumeResponse : string -> lib_error + option GetVolumeResponse;
  Unmarshal_Status : string -> lib_error + option (gmap string json);
  Unmarshal_CreateOrderResposnse :
    string -> lib_error + option CreateOrderResposnse;
  Unmarshal_OrderResponse : string -> lib_error + option OrderResponse;
  Unmarshal_ResultResponse : string -> lib_error + option ResultResponse
}.

(** [hc.Do(req)]. *)
Definition HttpClient_Do (w : World) (hc : HttpClient) (req : HttpRequest)
  : lib_error + HttpResponse :=
  match Transport hc with
  | Some rt => rt req
  | None => http_DefaultTransport w req
  end.

(** A world to run the client in: every request is well-formed, and the
    server answers each one with status 200 and the JSON body [null], which
    decodes to a nil result at every type. *)
Definition null_server : World :=
  {| http_NewRequest := fun method url =>
       inr {| req_method := method; req_url := url;
              req_header := ∅; req_query := ∅ |};
     http_DefaultTransport := fun _ =>
       inr {| StatusCode := 200; Body := inr "null" |};
     http_DefaultClient := {| Transport := None |};
     Unmarshal_GetVolumeResponse := fun _ => inr None;
     Unmarshal_Status := fun _ => inr None;
     Unmarshal_CreateOrderResposnse := fun _ => inr None;
     Unmarshal_OrderResponse := fun _ => inr None;
     Unmarshal_ResultResponse := fun _ => inr None |}.

Definition StatusOK : Z := 200.
Definition MethodGet : string := "GET".

(** ** client.go *)

Record Client : Type := mkClient {
  baseURL : string;
  apiKey : string;
  client : HttpClient;
  (** a nil pointer is [None] *)
  rateLimiter : option RateLimiter
}.

(** The result of a call on a client: what the call returned (or that it
    panicked), the client as the call left it, and the requests the call
    handed to the network, in order. *)
Definition call (A : Type) : Type :=
  (outcome A * Client * list HttpRequest)%type.

Definition result_of {A : Type} (r : call A) : outcome A := fst (fst r).
Definition client_of {A : Type} (r : call A) : Client := snd (fst r).
Definition sent_of {A : Type} (r : call A) : list HttpRequest := snd r.

(** The error a call handed back to its caller, if it returned one. *)
Definition error_of {A : Type} (o : outcome (A * option error))
  : option error :=
  match o with
  | Returned (_, err) => err
  | Panicked => None
  end.

Definition map_client {A : Type} (f : Client -> Client) (r : call A)
  : call A :=
  (result_of r, f (client_of r), sent_of r).

Module Api.

Definition New (key : string) : Client :=
  {| baseURL := "https://exch.cx/api"; apiKey := key;
     client := {| Transport := None |}; rateLimiter := None |}.

Definition set_rateLimiter (c : Client) (rl : option RateLimiter) : Client :=
  {| baseURL := baseURL c; apiKey := apiKey c; client := client c;
     rateLimiter := rl |}.

(** [fmt.Sprintf("%s/%s", c.baseURL, path)] *)
Definition fullURL (c : Client) (path : string) : string :=
  baseURL c +:+ "/" +:+ path.

(** Lines 49-75 of [request]: the part after the admission gate. *)
Definition send (w : World) (c : Client) (path method : string)
    (params : gmap string string)
  : (Z * string * option error) * list HttpRequest :=
  match http_NewRequest w method (fullURL c path) with
  | inl err => ((0, "", Some (FromLib err)), [])
  | inr req0 =>
      let req :=
        {| req_method := req_method req0;
           req_url := req_url req0;
           req_header :=
             <["X-Requested-With" := "XMLHttpRequest"]>
               (<["Content-Type" := "application/json"]> (req_header req0));
           req_query := params ∪ req_query req0 |} in
      match HttpClient_Do w (http_DefaultClient w) req with
      | inl err => ((0, "", Some (FromLib err)), [req])
      | inr res =>
          match Body res with
          | inl err => ((0, "", Some (FromLib err)), [req])
          | inr body => ((StatusCode res, body, None), [req])
          end
      end
  end.

(** [c.request(path, method, params)], reading [time.Now()] as [now] when
    the limiter is consulted.  A nil byte slice and an empty one are both
    the empty string. *)
Definition request (w : World) (c : Client) (now : Time)
    (path method : string) (params : gmap string string)
  : call (Z * string * option error) :=
  match rateLimiter c with
  | Some rl =>
      match Allow rl now with
      | (Panicked, rl') => (Panicked, set_rateLimiter c (Some rl'), [])
      | (Returned false, rl') =>
          (Returned (0, "", Some RateLimitExceeded),
           set_rateLimiter c (Some rl'), [])
      | (Returned true, rl') =>
          let '(r, sent) := send w c path method params in
          (Returned r, set_rateLimiter c (Some rl'), sent)
      end
  | None =>
      let '(r, sent) := send w c path method params in
      (Returned r, c, sent)
  end.

(** The common tail of the eight API methods: the three checks each of them
    makes on what [request] returned, with the method's own error values.
    [on_err] is what the method returns for an error of [request],
    [on_status] for a status other than 200, [on_decode] for a decoding
    error; [decode] is [json.Unmarshal] at the method's result type. *)
Definition finish {T : Type}
    (on_err : error -> error)
    (on_status : Z -> string -> error)
    (on_decode : error -> error)
    (decode : string -> lib_error + option T)
    (r : call (Z * string * option error))
  : call (option T * option error) :=
  match r with
  | (Panicked, c', sent) => (Panicked, c', sent)
  | (Returned (_, _, Some err), c', sent) =>
      (Returned (None, Some (on_err err)), c', sent)
  | (Returned (statusCode, body, None), c', sent) =>
      if statusCode =? StatusOK then
        match decode body with
        | inl e => (Returned (None, Some (on_decode (FromLib e))), c', sent)
        | inr result => (Returned (result, None), c', sent)
        end
      else (Returned (None, Some (on_status statusCode body)), c', sent)
  end.

(** A method that returns before it calls [request]. *)
Definition early {T : Type} (c : Client) (err : error)
  : call (option T * option error) :=
  (Returned (None, Some err), c, []).

Definition Volume (w : World) (c : Client) (now : Time)
  : call (option GetVolumeResponse * option error) :=
  finish
    (fun err => err)
    (fun statusCode _ =>
       Errorf "error: received status code %d" [ArgInt statusCode])
    (fun err => err)
    (Unmarshal_GetVolumeResponse w)
    (request w c now "volume" MethodGet ∅).

Definition Status (w : World) (c : Client) (now : Time)
  : call (option (gmap string json) * option error) :=
  finish
    (fun err => err)
    (fun statusCode _ =>
       Errorf "error: received status code %d" [ArgInt statusCode])
    (fun err => err)
    (Unmarshal_Status w)
    (request w c now "status" MethodGet ∅).

(** Lines 122-144 of [Order]: the query parameters. *)
Definition Order_params (from to : CryptoCurrency) (address : string)
    (opts : option OrderOptions) : gmap string string :=
  let params : gmap string string :=
    <["to_address" := address]>
      (<["to_currency" := to]> (<["from_currency" := from]> ∅)) in
  match opts with
  | None => params
  | Some o =>
      let p1 := if String.eqb (RefundAddress o) "" then params
                else <["refund_address" := RefundAddress o]> params in
      let p2 := if String.eqb (RateMode o) "" then p1
                else <["rate_mode" := RateMode o]> p1 in
      let p3 := if String.eqb (ReferrerID o) "" then p2
                else <["ref" := ReferrerID o]> p2 in
      let p4 := if String.eqb (FeeOption o) "" then p3
                else <["fee_option" := FeeOption o]> p3 in
      match Aggregation o with
      | None => p4
      | Some b => <["aggregation" := if b then "yes" else "no"]> p4
      end
  end.

Definition Order (w : World) (c : Client) (now : Time)
    (from to : CryptoCurrency) (address : string)
    (opts : option OrderOptions)
  : call (option CreateOrderResposnse * option error) :=
  if String.eqb from "" || String.eqb to "" || String.eqb address "" then
    early c (Errorf "from, to, and address are required" [])
  else
    finish
      (fun err => Errorf "request error: %v" [ArgError err])
      (fun statusCode body =>
         Errorf "error: status %d, response: %s"
           [ArgInt statusCode; ArgString body])
      (fun err => Errorf "unmarshal error: %v" [ArgError err])
      (Unmarshal_CreateOrderResposnse w)
      (request w c now "create" MethodGet
         (Order_params from to address opts)).

Definition GetOrder (w : World) (c : Client) (now : Time) (id : string)
  : call (option OrderResponse * option error) :=
  if String.eqb id "" then early c (Errorf "id is required" [])
  else
    finish
      (fun err => Errorf "request error: %v" [ArgError err])
      (fun statusCode body =>
         Errorf "error: status %d, response: %s"
           [ArgInt statusCode; ArgString body])
      (fun err => Errorf "unmarshal error: %v" [ArgError err])
      (Unmarshal_OrderResponse w)
      (request w c now "order" MethodGet (<["orderid" := id]> ∅)).

Definition Refund (w : World) (c : Client) (now : Time) (id : string)
  : call (option ResultResponse * option error) :=
  if String.eqb id "" then early c (Errorf "id is required" [])
  else
    finish
      (fun err => Errorf "request error: %v" [ArgError err])
      (fun statusCode body =>
         Errorf "error: status %d, response: %s"
           [ArgInt statusCode; ArgString body])
      (fun err => Errorf "unmarshal error: %v" [ArgError err])
      (Unmarshal_ResultResponse w)
      (request w c now "order/refund" MethodGet (<["orderid" := id]> ∅)).

Definition ConfirmRefund (w : World) (c : Client) (now : Time) (id : string)
  : call (option ResultResponse * option error) :=
  if String.eqb id "" then early c (Errorf "id is required" [])
  else
    finish
      (fun err => Errorf "request error: %v" [ArgError err])
      (fun statusCode body =>
         Errorf "error: status %d, response: %s"
           [ArgInt statusCode; ArgString body])
      (fun err => Errorf "unmarshal error: %v" [ArgError err])
      (Unmarshal_ResultResponse w)
      (request w c now "order/refund_confirm" MethodGet
         (<["orderid" := id]> ∅)).

Definition RevalidateAddress (w : World) (c : Client) (now : Time)
    (id address : string)
  : call (option ResultResponse * option error) :=
  if String.eqb id "" || String.eqb address "" then
    early c (Errorf "id and address are required" [])
  else
    finish
      (fun err => Errorf "error making request: %v" [ArgError err])
      (fun statusCode body =>
         Errorf "error: received status code %d, response: %s"
           [ArgInt statusCode; ArgString body])
      (fun err => Errorf "error unmarshaling response: %v" [ArgError err])
      (Unmarshal_ResultResponse w)
      (request w c now "order/revalidate_address" MethodGet
         (<["to_address" := address]> (<["orderid" := id]> ∅))).

Definition Remove (w : World) (c : Client) (now : Time) (id : string)
  : call (option ResultResponse * option error) :=
  if String.eqb id "" then early c (Errorf "order id is empty" [])
  else
    finish
      (fun err => Errorf "error making request: %v" [ArgError err])
      (fun statusCode body =>
         Errorf "error: received status code %d, response: %s"
           [ArgInt statusCode; ArgString body])
      (fun err => Errorf "error unmarshaling response: %v" [ArgError err])
      (Unmarshal_ResultResponse w)
      (request w c now "order/remove" MethodGet (<["orderid" := id]> ∅)).

(** The setter [(c *Client) RateLimiter(max, interval)]. *)
Definition RateLimiter (c : Client) (max : Z) (interval : Duration)
    (now : Time) : Client :=
  set_rateLimiter c (Some (NewRateLimiter max interval now)).

(** The setter [(c *Client) Client(client)]. *)
Definition Client (c : Client) (hc : HttpClient) : Client :=
  {| baseURL := baseURL c; apiKey := apiKey c; client := hc;
     rateLimiter := rateLimiter c |}.

End Api.

(** The client with another value in the field [apiKey]. *)
Definition with_apiKey (c : Client) (key : string) : Client :=
  {| baseURL := baseURL c; apiKey := key; client := client c;
     rateLimiter := rateLimiter c |}.

(** The admission gate of [request] lets the call through: there is no
    limiter, or [Allow] returns true. *)
Definition admitted (c : Client) (now : Time) : Prop :=
  match rateLimiter c with
  | None => True
  | Some rl => fst (Allow rl now) = Returned true
  end.

(** The limiter of the client is one that panics: its interval is zero. *)
Definition zero_interval (c : Client) : Prop :=
  exists rl, rateLimiter c = Some rl /\ interval rl = 0.

(** ** Goroutines sharing one limiter

    [Allow] as it runs under the scheduler: every goroutine executes the
    body of [Allow] statement by statement, and the scheduler may switch
    goroutines between any two statements.  [rl.mu.Lock()] can only be
    passed while the mutex is free; the deferred [rl.mu.Unlock()] runs last,
    also when the body panics. *)

Module Concurrent.

(** Where a goroutine stands in [Allow], with the locals it has set. *)
Inductive pc : Type :=
| AtLock                                  (* line 29, not yet passed *)
| AtNow                                   (* line 33 *)
| AtSub (now : Time)                      (* line 34 *)
| AtSetLast (now : Time) (elapsed : Duration)   (* line 35 *)
| AtAdd (elapsed : Duration)              (* line 38 *)
| AtClamp                                 (* lines 39-41 *)
| AtCheck                                 (* line 44 *)
| AtDec                                   (* line 45 *)
| AtUnlock (r : outcome bool)             (* the deferred unlock *)
| Done (r : outcome bool).

(** The limiter struct in memory: its mutex and its fields. *)
Record shared : Type := mkShared {
  locked : bool;
  rl : RateLimiter
}.

Definition set_tokens (r : RateLimiter) (n : Z) : RateLimiter :=
  {| tokens := n; max := max r; interval := interval r; last := last r |}.

Definition set_last (r : RateLimiter) (t : Time) : RateLimiter :=
  {| tokens := tokens r; max := max r; interval := interval r; last := t |}.

(** One statement of one goroutine; [clock] is what [time.Now()] reads if
    the statement is line 33.  [None]: the goroutine cannot move (it waits
    for the mutex, or it has returned). *)
Definition step (clock : Time) (s : shared) (p : pc) : option (shared * pc) :=
  match p with
  | AtLock =>
      if locked s then None
      else Some ({| locked := true; rl := rl s |}, AtNow)
  | AtNow => Some (s, AtSub clock)
  | AtSub now => Some (s, AtSetLast now (Time_Sub now (last (rl s))))
  | AtSetLast now elapsed =>
      Some ({| locked := locked s; rl := set_last (rl s) now |}, AtAdd elapsed)
  | AtAdd elapsed =>
      if interval (rl s) =? 0 then Some (s, AtUnlock Panicked)
      else
        Some ({| locked := locked s;
                 rl := set_tokens (rl s)
                         (Int64.wrap64
                            (tokens (rl s)
                             + generated elapsed (interval (rl s)))) |},
              AtClamp)
  | AtClamp =>
      if max (rl s) <? tokens (rl s) then
        Some ({| locked := locked s; rl := set_tokens (rl s) (max (rl s)) |},
              AtCheck)
      else Some (s, AtCheck)
  | AtCheck =>
      if 0 <? tokens (rl s) then Some (s, AtDec)
      else Some (s, AtUnlock (Returned false))
  | AtDec =>
      Some ({| locked := locked s;
               rl := set_tokens (rl s) (Int64.wrap64 (tokens (rl s) - 1)) |},
            AtUnlock (Returned true))
  | AtUnlock r => Some ({| locked := false; rl := rl s |}, Done r)
  | Done _ => None
  end.

(** The limiter and the goroutines calling [Allow] on it. *)
Record config : Type := mkConfig {
  mem : shared;
  threads : list pc
}.

(** The scheduler picks a goroutine that can move; it makes one step. *)
Inductive sched (clock : Time) : config -> config -> Prop :=
| sched_pick (s s' : shared) (p p' : pc) (before after : list pc) :
    step clock s p = Some (s', p') ->
    sched clock (mkConfig s (before ++ p :: after))
                (mkConfig s' (before ++ p' :: after)).

(** Any number of scheduler steps. *)
Inductive reach (clock : Time) : config -> config -> Prop :=
| reach_refl (cfg : config) : reach clock cfg cfg
| reach_step (cfg cfg' cfg'' : config) :
    reach clock cfg cfg' -> sched clock cfg' cfg'' ->
    reach clock cfg cfg''.

(** [n] goroutines about to call [Allow] on a limiter whose mutex is free. *)
Definition start (r : RateLimiter) (n : nat) : config :=
  mkConfig {| locked := false; rl := r |} (replicate n AtLock).

Definition is_done (p : pc) : bool :=
  match p with Done _ => true | _ => false end.

(** Inside the critical section: the lock is passed, the unlock is not. *)
Definition inside (p : pc) : bool :=
  match p with AtLock | Done _ => false | _ => true end.

Definition returned (b : bool) (p : pc) : bool :=
  match p with
  | Done (Returned b') => Bool.eqb b b'
  | _ => false
  end.

Fixpoint count (f : pc -> bool) (l : list pc) : nat :=
  match l with
  | [] => 0
  | p :: l' => (if f p then 1 else 0) + count f l'
  end%nat.

Definition all_done (cfg : config) : Prop :=
  Forall (fun p => is_done p = true) (threads cfg).

(** The scheduler as a function, for running a given schedule: the [i]-th
    goroutine makes a step. *)
Definition pick (clock : Time) (cfg : config) (i : nat) : option config :=
  match threads cfg !! i with
  | None => None
  | Some p =>
      match step clock (mem cfg) p with
      | None => None
      | Some (s', p') =>
          Some (mkConfig s' (take i (threads cfg) ++ p' :: drop (S i) (threads cfg)))
      end
  end.

Fixpoint run (clock : Time) (cfg : config) (schedule : list nat)
  : option config :=
  match schedule with
  | [] => Some cfg
  | i :: rest =>
      match pick clock cfg i with
      | None => None
      | Some cfg' => run clock cfg' rest
      end
  end.

(** What is left for a goroutine to do, in statements. *)
Definition remaining (p : pc) : nat :=
  match p with
  | AtLock => 9
  | AtNow => 8
  | AtSub _ => 7
  | AtSetLast _ _ => 6
  | AtAdd _ => 5
  | AtClamp => 4
  | AtCheck => 3
  | AtDec => 2
  | AtUnlock _ => 1
  | Done _ => 0
  end%nat.

Fixpoint work (l : list pc) : nat :=
  match l with
  | [] => 0
  | p :: l' => remaining p + work l'
  end%nat.

(** What holds of a goroutine at each statement when every clock reading
    is the limiter's [last], so that no time has elapsed: [k] is the number
    of tokens left by the calls that have returned, [tok] is the field
    [tokens] in memory. *)
Definition at_pc (t0 : Time) (k tok : Z) (p : pc) : Prop :=
  match p with
  | AtLock => True
  | AtNow => tok = k
  | AtSub now => tok = k /\ now = t0
  | AtSetLast now elapsed => tok = k /\ now = t0 /\ elapsed = 0
  | AtAdd elapsed => tok = k /\ elapsed = 0
  | AtClamp => tok = k
  | AtCheck => tok = k
  | AtDec => tok = k /\ 0 < k
  | AtUnlock (Returned true) => tok = k - 1 /\ 0 < k
  | AtUnlock (Returned false) => tok = k /\ k = 0
  | AtUnlock Panicked => False
  | Done Panicked => False
  | Done (Returned _) => True
  end.

(** The invariant of [n] goroutines calling [Allow] at clock reading [t0]
    on a limiter built at [t0] with capacity [C] and interval [I]. *)
Definition inv (C : Z) (I : Duration) (t0 : Time) (n : nat) (cfg : config)
  : Prop :=
  let r := rl (mem cfg) in
  let k := C - Z.of_nat (count (returned true) (threads cfg)) in
  max r = C /\ interval r = I /\ last r = t0
  /\ length (threads cfg) = n
  /\ 0 <= k
  /\ ((0 < count (returned false) (threads cfg))%nat -> k = 0)
  /\ count inside (threads cfg) = (if locked (mem cfg) then 1 else 0)%nat
  /\ (locked (mem cfg) = false -> tokens r = k)
  /\ Forall (at_pc t0 k (tokens r)) (threads cfg).

End Concurrent.

(** The mutex is held exactly while one goroutine is inside the section,
    and no statement changes the configuration of the limiter. *)
Definition mutex_inv (r0 : RateLimiter) (n : nat) (cfg : Concurrent.config)
  : Prop :=
  Concurrent.count Concurrent.inside (Concurrent.threads cfg)
  = (if Concurrent.locked (Concurrent.mem cfg) then 1 else 0)%nat
  /\ max (Concurrent.rl (Concurrent.mem cfg)) = max r0
  /\ interval (Concurrent.rl (Concurrent.mem cfg)) = interval r0
  /\ length (Concurrent.threads cfg) = n.

(** Any number of scheduler steps, each with a clock reading of its own. *)
Inductive reach_any : Concurrent.config -> Concurrent.config -> Prop :=
| reach_any_refl (cfg : Concurrent.config) : reach_any cfg cfg
| reach_any_step (clock : Time) (cfg cfg' cfg'' : Concurrent.config) :
    reach_any cfg cfg' -> Concurrent.sched clock cfg' cfg'' ->
    reach_any cfg cfg''.

(** * Properties *)

(** ** Machine integers *)

Lemma wrap64_id (z : Z) : Int64.in_range z -> Int64.wrap64 z = z.
Proof.
  unfold Int64.in_range, Int64.wrap64, Int64.min_int, Int64.max_int.
  intros Hz. rewrite Z.mod_small; lia.
Qed.

Lemma wrap64_range (z : Z) : Int64.in_range (Int64.wrap64 z).
Proof.
  unfold Int64.in_range, Int64.wrap64, Int64.min_int, Int64.max_int.
  pose proof (Z.mod_pos_bound (z + 2 ^ 63) (2 ^ 64) ltac:(lia)). lia.
Qed.

Lemma saturate_id (z : Z) : Int64.in_range z -> Int64.saturate z = z.
Proof.
  unfold Int64.in_range, Int64.saturate. intros Hz.
  destruct (Z.ltb_spec z Int64.min_int); [lia|].
  destruct (Z.ltb_spec Int64.max_int z); [lia|]. reflexivity.
Qed.

Lemma in_range_nonneg (z : Z) :
  0 <= z <= Int64.max_int -> Int64.in_range z.
Proof. unfold Int64.in_range, Int64.min_int, Int64.max_int. lia. Qed.

(** ** The limiter, one call at a time *)

Lemma Time_Sub_fits (t d : Z) :
  0 <= d <= Int64.max_int -> Time_Sub (t + d) t = d.
Proof.
  intros Hd. unfold Time_Sub. replace (t + d - t) with d by lia.
  apply saturate_id, in_range_nonneg, Hd.
Qed.

Lemma Time_Sub_same (t : Time) : Time_Sub t t = 0.
Proof.
  replace t with (t + 0) at 1 by lia. apply Time_Sub_fits.
  unfold Int64.max_int. lia.
Qed.

(** Whole intervals only: the remainder of the division is dropped. *)
Lemma generated_whole (k r i : Z) :
  0 < i -> 0 <= k -> 0 <= r < i -> k * i + r <= Int64.max_int ->
  generated (k * i + r) i = k.
Proof.
  intros Hi Hk Hr Hfit. unfold generated.
  assert (Hq : Z.quot (k * i + r) i = k).
  { rewrite Z.quot_div_nonneg by nia.
    rewrite Z.div_add_l by lia. rewrite Z.div_small by lia. lia. }
  rewrite Hq. apply wrap64_id, in_range_nonneg. nia.
Qed.

(** A call that finds a token and no elapsed time takes the token. *)
Lemma Allow_takes (rl : RateLimiter) :
  interval rl <> 0 -> 0 < tokens rl <= max rl -> max rl <= Int64.max_int ->
  Allow rl (last rl)
  = (Returned true,
     {| tokens := tokens rl - 1; max := max rl;
        interval := interval rl; last := last rl |}).
Proof.
  intros Hi Ht Hm. unfold Allow, elapsed_of.
  rewrite Time_Sub_same.
  destruct (Z.eqb_spec (interval rl) 0) as [|_]; [contradiction|].
  unfold generated. rewrite Z.quot_0_l by assumption.
  rewrite (wrap64_id 0) by (apply in_range_nonneg; unfold Int64.max_int; lia).
  rewrite Z.add_0_r.
  rewrite (wrap64_id (tokens rl)) by (apply in_range_nonneg; lia).
  destruct (Z.ltb_spec (max rl) (tokens rl)); [lia|].
  destruct (Z.ltb_spec 0 (tokens rl)); [|lia].
  rewrite wrap64_id by (apply in_range_nonneg; lia). reflexivity.
Qed.

(** A call that finds the bucket empty and no elapsed time is denied and
    changes nothing. *)
Lemma Allow_denies (rl : RateLimiter) :
  interval rl <> 0 -> tokens rl = 0 -> 0 <= max rl ->
  Allow rl (last rl) = (Returned false, rl).
Proof.
  intros Hi Ht Hm. unfold Allow, elapsed_of.
  rewrite Time_Sub_same.
  destruct (Z.eqb_spec (interval rl) 0) as [|_]; [contradiction|].
  unfold generated. rewrite Z.quot_0_l by assumption.
  rewrite (wrap64_id 0) by (apply in_range_nonneg; unfold Int64.max_int; lia).
  rewrite Z.add_0_r, Ht.
  rewrite (wrap64_id 0) by (apply in_range_nonneg; unfold Int64.max_int; lia).
  destruct (Z.ltb_spec (max rl) 0); [lia|].
  simpl. destruct rl; simpl in *; subst; reflexivity.
Qed.

(** Draining: with [n] tokens and the clock standing still, [n] calls are
    admitted and the next is denied. *)
Lemma drain (n : nat) :
  forall rl : RateLimiter,
    interval rl <> 0 -> tokens rl = Z.of_nat n ->
    tokens rl <= max rl -> max rl <= Int64.max_int ->
    Allows rl (replicate (S n) (last rl))
    = (replicate n (Returned true) ++ [Returned false],
       {| tokens := 0; max := max rl;
          interval := interval rl; last := last rl |}).
Proof.
  induction n as [|n IH]; intros rl Hi Ht Hle Hm.
  - simpl. rewrite Allow_denies by (simpl in Ht; lia).
    destruct rl; simpl in *; subst; reflexivity.
  - change (replicate (S (S n)) (last rl))
      with (last rl :: replicate (S n) (last rl)).
    cbn [Allows]. rewrite Allow_takes by lia.
    specialize (IH {| tokens := tokens rl - 1; max := max rl;
                      interval := interval rl; last := last rl |}).
    cbn [tokens max interval last] in IH.
    rewrite IH by lia. reflexivity.
Qed.

(** The first call after an idle period of [k] whole intervals and a
    remainder [r], on an empty bucket: [min max k] tokens are there, and
    the call takes one of them if there is any. *)
Lemma Allow_refill (rl : RateLimiter) (k r : Z) :
  tokens rl = 0 -> 0 <= max rl <= Int64.max_int -> 0 < interval rl ->
  0 <= k -> 0 <= r < interval rl ->
  k * interval rl + r <= Int64.max_int ->
  let now := last rl + (k * interval rl + r) in
  Allow rl now
  = if 0 <? Z.min (max rl) k then
      (Returned true,
       {| tokens := Z.min (max rl) k - 1; max := max rl;
          interval := interval rl; last := now |})
    else
      (Returned false,
       {| tokens := 0; max := max rl;
          interval := interval rl; last := now |}).
Proof.
  intros Ht Hm Hi Hk Hr Hfit now. unfold Allow, elapsed_of. subst now.
  rewrite Time_Sub_fits by nia.
  destruct (Z.eqb_spec (interval rl) 0); [lia|].
  rewrite generated_whole by assumption.
  rewrite Ht, Z.add_0_l.
  rewrite (wrap64_id k) by (apply in_range_nonneg; nia).
  destruct (Z.ltb_spec (max rl) k).
  - rewrite Z.min_l by lia.
    destruct (Z.ltb_spec 0 (max rl)).
    + rewrite wrap64_id by (apply in_range_nonneg; lia). reflexivity.
    + replace (max rl) with 0 at 1 by lia. reflexivity.
  - rewrite Z.min_r by lia.
    destruct (Z.ltb_spec 0 k).
    + rewrite wrap64_id by (apply in_range_nonneg; lia). reflexivity.
    + replace k with 0 at 1 by lia. reflexivity.
Qed.

(** Every call leaves [last] at its own clock reading, whatever it
    returns. *)
Lemma Allow_sets_last (rl : RateLimiter) (now : Time) :
  last (snd (Allow rl now)) = now.
Proof.
  unfold Allow. destruct (interval rl =? 0); [reflexivity|].
  match goal with |- context [if 0 <? ?t then _ else _] =>
    destruct (0 <? t) end; reflexivity.
Qed.

(** No call changes the configuration of the limiter. *)
Lemma Allow_keeps_config (rl : RateLimiter) (now : Time) :
  max (snd (Allow rl now)) = max rl
  /\ interval (snd (Allow rl now)) = interval rl.
Proof.
  unfold Allow. destruct (interval rl =? 0); [split; reflexivity|].
  match goal with |- context [if 0 <? ?t then _ else _] =>
    destruct (0 <? t) end; split; reflexivity.
Qed.

(** The bucket invariant is kept by a call as long as the sum at line 38
    stays within [int]. *)
Lemma Allow_preserves_bucket_inv (rl : RateLimiter) (now : Time) :
  bucket_inv rl -> 0 < interval rl -> last rl <= now ->
  max rl + Z.quot (now - last rl) (interval rl) <= Int64.max_int ->
  bucket_inv (snd (Allow rl now)).
Proof.
  unfold bucket_inv. intros Hinv Hi Hnow Hfit. unfold Allow, elapsed_of.
  destruct (Z.eqb_spec (interval rl) 0); [lia|].
  set (e := Time_Sub now (last rl)).
  assert (He : 0 <= e <= now - last rl).
  { subst e. unfold Time_Sub, Int64.saturate, Int64.min_int, Int64.max_int.
    destruct (Z.ltb_spec (now - last rl) (- 2 ^ 63)); [lia|].
    destruct (Z.ltb_spec (2 ^ 63 - 1) (now - last rl)); lia. }
  assert (Hq : 0 <= Z.quot e (interval rl)
               <= Z.quot (now - last rl) (interval rl)).
  { split; [apply Z.quot_pos; lia | apply Z.quot_le_mono; lia]. }
  unfold generated.
  rewrite (wrap64_id (Z.quot e (interval rl)))
    by (apply in_range_nonneg; lia).
  rewrite wrap64_id by (apply in_range_nonneg; lia).
  set (t1 := tokens rl + Z.quot e (interval rl)) in *.
  destruct (Z.ltb_spec (max rl) t1).
  - destruct (Z.ltb_spec 0 (max rl)); simpl.
    + rewrite wrap64_id by (apply in_range_nonneg; lia). lia.
    + lia.
  - destruct (Z.ltb_spec 0 t1); simpl.
    + rewrite wrap64_id by (apply in_range_nonneg; lia). lia.
    + lia.
Qed.

(** A limiter whose interval is zero panics at every call, on the
    division of line 38. *)
Lemma Allow_zero_interval_panics (rl : RateLimiter) (now : Time) :
  interval rl = 0 -> fst (Allow rl now) = Panicked.
Proof. intros Hi. unfold Allow. rewrite Hi. reflexivity. Qed.

(** A limiter whose capacity is below one never admits a call. *)
Lemma Allow_no_capacity_denies (rl : RateLimiter) (now : Time) :
  max rl < 1 -> interval rl <> 0 ->
  fst (Allow rl now) = Returned false
  /\ tokens (snd (Allow rl now)) <= max rl.
Proof.
  intros Hm Hi. unfold Allow.
  destruct (Z.eqb_spec (interval rl) 0); [contradiction|].
  match goal with |- context [if max rl <? ?t then _ else _] =>
    destruct (Z.ltb_spec (max rl) t) end.
  - destruct (Z.ltb_spec 0 (max rl)); [lia|]. simpl. split; [reflexivity|lia].
  - match goal with |- context [if 0 <? ?t then _ else _] =>
      destruct (Z.ltb_spec 0 t) end; [lia|]. simpl. split; [reflexivity|lia].
Qed.

(** ** Sequences of calls *)

Lemma states_after_last (nows : list Time) :
  forall rl : RateLimiter, map last (states_after rl nows) = nows.
Proof.
  induction nows as [|now rest IH]; intros rl; simpl; [reflexivity|].
  rewrite Allow_sets_last, IH. reflexivity.
Qed.

Lemma nondecreasing_final (nows : list Time) :
  forall prev : Time,
    nondecreasing prev nows -> prev <= final_reading prev nows.
Proof.
  induction nows as [|now rest IH]; intros prev H; simpl in *; [lia|].
  destruct H as [H1 H2]. specialize (IH now H2). lia.
Qed.

(** Under a clock that never goes back, the elapsed times the calls compute
    add up to the time between the first [last] and the final reading. *)
Lemma elapsed_trace_total (nows : list Time) :
  forall rl : RateLimiter,
    nondecreasing (last rl) nows ->
    final_reading (last rl) nows - last rl <= Int64.max_int ->
    total (elapsed_trace rl nows) = final_reading (last rl) nows - last rl
    /\ Forall (fun e => 0 <= e) (elapsed_trace rl nows).
Proof.
  induction nows as [|now rest IH]; intros rl Hmono Hfit; simpl in *.
  - split; [lia | constructor].
  - destruct Hmono as [H1 H2].
    pose proof (nondecreasing_final rest now H2) as Hfin.
    assert (He : elapsed_of rl now = now - last rl).
    { unfold elapsed_of. replace now with (last rl + (now - last rl)) at 1 by lia.
      apply Time_Sub_fits. lia. }
    specialize (IH (snd (Allow rl now))).
    rewrite Allow_sets_last in IH.
    destruct (IH H2 ltac:(lia)) as [IH1 IH2].
    rewrite He, IH1. split; [lia|]. constructor; [lia | exact IH2].
Qed.

(** Whole intervals of parts never exceed the whole intervals of the sum. *)
Lemma generated_total_le (i : Duration) (es : list Duration) :
  0 < i -> Forall (fun e => 0 <= e) es -> total es <= Int64.max_int ->
  0 <= total es
  /\ total (map (fun e => generated e i) es) <= Z.quot (total es) i.
Proof.
  intros Hi Hes. induction Hes as [|e es He Hes IH]; simpl; intros Hfit.
  - rewrite Z.quot_0_l by lia. lia.
  - assert (Hes' : 0 <= total es).
    { clear -Hes. induction Hes; simpl; lia. }
    destruct (IH ltac:(lia)) as [_ IH2]. split; [lia|].
    unfold generated at 1.
    assert (Hq : 0 <= Z.quot e i <= e).
    { split; [apply Z.quot_pos; lia|].
      rewrite Z.quot_div_nonneg by lia.
      apply Z.div_le_upper_bound; nia. }
    rewrite wrap64_id by (apply in_range_nonneg; lia).
    rewrite !Z.quot_div_nonneg in * by lia.
    assert (e / i + total es / i <= (e + total es) / i).
    { apply Z.div_le_lower_bound; [lia|].
      pose proof (Z.mul_div_le e i Hi).
      pose proof (Z.mul_div_le (total es) i Hi). lia. }
    lia.
Qed.

Lemma generated_trace_elapsed (nows : list Time) :
  forall rl : RateLimiter,
    generated_trace rl nows
    = map (fun e => generated e (interval rl)) (elapsed_trace rl nows).
Proof.
  induction nows as [|now rest IH]; intros rl; simpl; [reflexivity|].
  rewrite IH. destruct (Allow_keeps_config rl now) as [_ ->]. reflexivity.
Qed.

(** ** The limiter: construction, capacity, refill, clock *)

(** C1, as the code has it: construction never fails.  For every capacity
    and interval, also with capacity below one or a non-positive interval,
    the setter installs a limiter holding [tokens = max = capacity], the
    interval as given and [last = now]; nothing is validated and the rest
    of the client is untouched. *)
Theorem construction_never_rejects
    (c : Client) (capacity : Z) (refillInterval : Duration) (now : Time) :
  capacity < 1 \/ refillInterval <= 0 ->
  rateLimiter (Api.RateLimiter c capacity refillInterval now)
  = Some (NewRateLimiter capacity refillInterval now)
  /\ NewRateLimiter capacity refillInterval now
     = {| tokens := capacity; max := capacity;
          interval := refillInterval; last := now |}
  /\ baseURL (Api.RateLimiter c capacity refillInterval now) = baseURL c
  /\ apiKey (Api.RateLimiter c capacity refillInterval now) = apiKey c
  /\ client (Api.RateLimiter c capacity refillInterval now) = client c.
Proof. intros _. repeat split. Qed.

Lemma construction_never_rejects_witness :
  (0 < 1 \/ 0 <= 0)
  /\ rateLimiter (Api.RateLimiter (Api.New "key") 0 0 7)
     = Some {| tokens := 0; max := 0; interval := 0; last := 7 |}.
Proof.
  split; [left; lia|].
  apply (construction_never_rejects (Api.New "key") 0 0 7). left. lia.
Defined.

(** C1, as the claim has it, fails: with capacity 0 and interval 0 the
    limiter is created and installed on the client, and it is this limiter
    that the next call consults (and panics on). *)
Lemma construction_invalid_counterexample :
  rateLimiter (Api.RateLimiter (Api.New "key") 0 0 7) <> None
  /\ NewRateLimiter 0 0 7
     = {| tokens := 0; max := 0; interval := 0; last := 7 |}
  /\ Allow (NewRateLimiter 0 0 7) 8
     = (Panicked, {| tokens := 0; max := 0; interval := 0; last := 8 |})
  /\ Allow (NewRateLimiter (-3) (-5) 7) 8
     = (Returned false,
        {| tokens := -3; max := -3; interval := -5; last := 8 |}).
Proof. repeat split. discriminate. Qed.

(** C2: a limiter freshly built with capacity [C >= 1] and interval
    [I > 0] admits [C] calls made with no time elapsed and denies call
    [C + 1]. *)
Theorem capacity_bound (C : Z) (I : Duration) (t0 : Time) :
  1 <= C <= Int64.max_int -> 0 < I ->
  fst (Allows (NewRateLimiter C I t0) (replicate (Z.to_nat C + 1) t0))
  = replicate (Z.to_nat C) (Returned true) ++ [Returned false].
Proof.
  intros HC HI. rewrite Nat.add_1_r.
  pose proof (drain (Z.to_nat C) (NewRateLimiter C I t0)) as H.
  unfold NewRateLimiter in *. cbn [tokens max interval last] in H.
  rewrite H; [reflexivity | lia | lia | lia | lia].
Qed.

Lemma capacity_bound_witness :
  fst (Allows (NewRateLimiter 3 1000000000 0) [0; 0; 0; 0])
  = [Returned true; Returned true; Returned true; Returned false].
Proof.
  apply (capacity_bound 3 1000000000 0); unfold Int64.max_int; lia.
Defined.

(** C3: on an exhausted bucket, after an idle period of [k] whole intervals
    and a remainder [r] shorter than one interval, exactly [min C k] calls
    made at once are admitted and the next is denied: the remainder yields
    no token.  The idle period is a [time.Duration]. *)
Theorem refill_correctness (rl : RateLimiter) (k r : Z) :
  tokens rl = 0 -> 0 <= max rl <= Int64.max_int -> 0 < interval rl ->
  0 <= k -> 0 <= r < interval rl ->
  k * interval rl + r <= Int64.max_int ->
  let now : Time := last rl + (k * interval rl + r) in
  let admitted := Z.to_nat (Z.min (max rl) k) in
  generated (elapsed_of rl now) (interval rl) = k
  /\ fst (Allows rl (replicate (admitted + 1) now))
     = replicate admitted (Returned true) ++ [Returned false].
Proof.
  intros Ht Hm Hi Hk Hr Hfit now admitted. split.
  { unfold elapsed_of. subst now. rewrite Time_Sub_fits by nia.
    apply generated_whole; assumption. }
  rewrite Nat.add_1_r. cbn [replicate Allows].
  pose proof (Allow_refill rl k r Ht Hm Hi Hk Hr Hfit) as H1.
  cbv zeta in H1. fold now in H1. rewrite H1.
  destruct (Z.ltb_spec 0 (Z.min (max rl) k)) as [Hpos|Hzero].
  - set (rl' := {| tokens := Z.min (max rl) k - 1; max := max rl;
                   interval := interval rl; last := now |}).
    assert (Hn : admitted = S (Z.to_nat (Z.min (max rl) k - 1))).
    { subst admitted. lia. }
    rewrite Hn.
    pose proof (drain (Z.to_nat (Z.min (max rl) k - 1)) rl') as H2.
    cbn [tokens max interval last rl'] in H2.
    rewrite H2 by lia. reflexivity.
  - assert (Hn : admitted = 0%nat) by (subst admitted; lia).
    rewrite Hn. reflexivity.
Qed.

Lemma refill_correctness_witness :
  fst (Allows {| tokens := 0; max := 3; interval := 10; last := 100 |}
         [125; 125; 125])
  = [Returned true; Returned true; Returned false].
Proof.
  apply (refill_correctness
           {| tokens := 0; max := 3; interval := 10; last := 100 |} 2 5);
    simpl; unfold Int64.max_int; lia.
Defined.

(** C4 at the failing input: a limiter built with the largest capacity an
    [int] holds and an interval of one second satisfies the invariant; its
    first call, one and a half seconds later, adds one token to [max_int],
    which wraps the sum to [min_int] before the clamp of line 39 can act:
    the call is denied and [tokens] is left negative. *)
Theorem tokens_overflow_at_max_capacity :
  let rl := NewRateLimiter Int64.max_int 1000000000 0 in
  bucket_inv rl
  /\ nondecreasing (last rl) [1500000000]
  /\ Allow rl 1500000000
     = (Returned false,
        {| tokens := Int64.min_int; max := Int64.max_int;
           interval := 1000000000; last := 1500000000 |})
  /\ tokens (snd (Allow rl 1500000000)) < 0
  /\ ~ bucket_inv (snd (Allow rl 1500000000)).
Proof.
  cbv zeta. split; [unfold bucket_inv; simpl; unfold Int64.max_int; lia|].
  split; [simpl; lia|].
  assert (H : Allow (NewRateLimiter Int64.max_int 1000000000 0) 1500000000
              = (Returned false,
                 {| tokens := Int64.min_int; max := Int64.max_int;
                    interval := 1000000000; last := 1500000000 |}))
    by (vm_compute; reflexivity).
  rewrite H. split; [reflexivity|].
  split; [simpl; unfold Int64.min_int; lia|].
  unfold bucket_inv. simpl. unfold Int64.min_int. lia.
Qed.

(** C7: every call sets [last] to its own clock reading, whether it is
    admitted, denied or panics; so under a clock that never goes back the
    values of [last] never go back, the elapsed times the calls compute add
    up to exactly the time since the first [last] (no interval is counted
    twice), and the tokens the calls generate are at most the whole
    intervals of that time. *)
Theorem last_refill_monotone :
  (forall (rl : RateLimiter) (now : Time), last (snd (Allow rl now)) = now)
  /\ (forall (rl : RateLimiter) (nows : list Time),
        map last (states_after rl nows) = nows)
  /\ (forall (rl : RateLimiter) (nows : list Time),
        nondecreasing (last rl) nows ->
        nondecreasing (last rl) (map last (states_after rl nows)))
  /\ (forall (rl : RateLimiter) (nows : list Time),
        nondecreasing (last rl) nows ->
        final_reading (last rl) nows - last rl <= Int64.max_int ->
        total (elapsed_trace rl nows)
        = final_reading (last rl) nows - last rl)
  /\ (forall (rl : RateLimiter) (nows : list Time),
        nondecreasing (last rl) nows ->
        final_reading (last rl) nows - last rl <= Int64.max_int ->
        0 < interval rl ->
        total (generated_trace rl nows)
        <= Z.quot (final_reading (last rl) nows - last rl) (interval rl)).
Proof.
  split; [exact Allow_sets_last|].
  split; [intros; apply states_after_last|].
  split; [intros rl nows H; rewrite states_after_last; exact H|].
  split.
  - intros rl nows Hmono Hfit.
    apply (elapsed_trace_total nows rl Hmono Hfit).
  - intros rl nows Hmono Hfit Hi.
    destruct (elapsed_trace_total nows rl Hmono Hfit) as [Htot Hpos].
    rewrite generated_trace_elapsed, <- Htot.
    apply generated_total_le; [exact Hi | exact Hpos | lia].
Qed.

Lemma last_refill_monotone_witness :
  let rl := {| tokens := 0; max := 3; interval := 10; last := 100 |} in
  nondecreasing (last rl) [104; 104; 109; 125]
  /\ total (elapsed_trace rl [104; 104; 109; 125]) = 25
  /\ total (generated_trace rl [104; 104; 109; 125]) <= 2.
Proof.
  cbv zeta.
  pose proof last_refill_monotone as (_ & _ & _ & Hsum & Hgen).
  split; [simpl; lia|]. split.
  - apply (Hsum {| tokens := 0; max := 3; interval := 10; last := 100 |}
             [104; 104; 109; 125]);
      simpl; unfold Int64.max_int; lia.
  - apply (Hgen {| tokens := 0; max := 3; interval := 10; last := 100 |}
             [104; 104; 109; 125]);
      simpl; unfold Int64.max_int; lia.
Defined.

(** ** The call path *)

(** The HTTP path hands back library errors only, never the sentinel. *)
Lemma send_never_rate_limit (w : World) (c : Client) (path method : string)
    (params : gmap string string) :
  snd (fst (Api.send w c path method params)) <> Some RateLimitExceeded.
Proof.
  unfold Api.send.
  destruct (http_NewRequest w method (Api.fullURL c path)) as [e|req0];
    [simpl; discriminate|].
  match goal with |- context [HttpClient_Do ?a ?b ?r] =>
    destruct (HttpClient_Do a b r) as [e|res] end; [simpl; discriminate|].
  destruct (Body res); simpl; discriminate.
Qed.


(** [request] under a limiter that denies. *)
Lemma request_denied (w : World) (c : Client) (rl : RateLimiter) (now : Time)
    (path method : string) (params : gmap string string) :
  rateLimiter c = Some rl -> fst (Allow rl now) = Returned false ->
  Api.request w c now path method params
  = (Returned (0, "", Some RateLimitExceeded),
     Api.set_rateLimiter c (Some (snd (Allow rl now))), []).
Proof.
  intros Hrl Hdeny. unfold Api.request. rewrite Hrl.
  destruct (Allow rl now) as [o rl']. simpl in Hdeny. subst o. reflexivity.
Qed.

(** [request] without a limiter is the HTTP path. *)
Lemma request_unlimited (w : World) (c : Client) (now : Time)
    (path method : string) (params : gmap string string) :
  rateLimiter c = None ->
  Api.request w c now path method params
  = (Returned (fst (Api.send w c path method params)), c,
     snd (Api.send w c path method params)).
Proof.
  intros Hrl. unfold Api.request. rewrite Hrl.
  destruct (Api.send w c path method params). reflexivity.
Qed.

(** C5: with a limiter configured, [request] returns the sentinel
    [RateLimitExceeded] exactly when [Allow] denies, and it then hands no
    request to the network; with no limiter configured, [request] is the
    HTTP path itself, leaves the client as it was and never returns the
    sentinel. *)
Theorem request_gate :
  (forall (w : World) (c : Client) (rl : RateLimiter) (now : Time)
          (path method : string) (params : gmap string string),
      rateLimiter c = Some rl ->
      let r := Api.request w c now path method params in
      (error_of (result_of r) = Some RateLimitExceeded
       <-> fst (Allow rl now) = Returned false)
      /\ (fst (Allow rl now) = Returned false ->
          result_of r = Returned (0, "", Some RateLimitExceeded)
          /\ sent_of r = [])
      /\ rateLimiter (client_of r) = Some (snd (Allow rl now)))
  /\ (forall (w : World) (c : Client) (now : Time)
             (path method : string) (params : gmap string string),
        rateLimiter c = None ->
        let r := Api.request w c now path method params in
        r = (Returned (fst (Api.send w c path method params)), c,
             snd (Api.send w c path method params))
        /\ error_of (result_of r) <> Some RateLimitExceeded).
Proof.
  split.
  - intros w c rl now path method params Hrl r. subst r.
    unfold Api.request. rewrite Hrl.
    destruct (Allow rl now) as [[[|]|] rl'] eqn:HA; simpl.
    + pose proof (send_never_rate_limit w c path method params) as Hs.
      destruct (Api.send w c path method params) as [[[st body] err] sent].
      simpl in *. repeat split; try congruence; try discriminate.
    + repeat split; congruence.
    + repeat split; congruence.
  - intros w c now path method params Hrl r. subst r.
    rewrite request_unlimited by exact Hrl. split; [reflexivity|].
    pose proof (send_never_rate_limit w c path method params) as Hs.
    destruct (Api.send w c path method params) as [[[st body] err] sent].
    simpl in *. exact Hs.
Qed.

Lemma request_gate_witness :
  let limited :=
    Api.set_rateLimiter (Api.New "key")
      (Some {| tokens := 0; max := 1; interval := 10; last := 0 |}) in
  (error_of (result_of (Api.request null_server limited 0 "volume" "GET" ∅))
   = Some RateLimitExceeded
   <-> fst (Allow {| tokens := 0; max := 1; interval := 10; last := 0 |} 0)
       = Returned false)
  /\ error_of (result_of
                 (Api.request null_server (Api.New "key") 0 "volume" "GET" ∅))
     <> Some RateLimitExceeded.
Proof.
  cbv zeta. pose proof request_gate as [Hlim Hunl]. split.
  - apply (Hlim null_server
             (Api.set_rateLimiter (Api.New "key")
                (Some {| tokens := 0; max := 1; interval := 10; last := 0 |}))
             {| tokens := 0; max := 1; interval := 10; last := 0 |}
             0 "volume" "GET" ∅).
    reflexivity.
  - apply (Hunl null_server (Api.New "key") 0 "volume" "GET" ∅).
    reflexivity.
Defined.

(** ** The API methods *)

(** What each method returns when the limiter denies: none hands a request
    to the network; [Volume] and [Status] return the error of [request] as
    it is, the six others format it into a new error. *)
Lemma methods_when_denied (w : World) (c : Client) (rl : RateLimiter)
    (now : Time) :
  rateLimiter c = Some rl -> fst (Allow rl now) = Returned false ->
  let c' := Api.set_rateLimiter c (Some (snd (Allow rl now))) in
  let wrapped format :=
    Some (Errorf format [ArgError RateLimitExceeded]) in
  Api.Volume w c now = (Returned (None, Some RateLimitExceeded), c', [])
  /\ Api.Status w c now = (Returned (None, Some RateLimitExceeded), c', [])
  /\ (forall from to address opts,
        from <> "" -> to <> "" -> address <> "" ->
        Api.Order w c now from to address opts
        = (Returned (None, wrapped "request error: %v"), c', []))
  /\ (forall id, id <> "" ->
        Api.GetOrder w c now id
        = (Returned (None, wrapped "request error: %v"), c', []))
  /\ (forall id, id <> "" ->
        Api.Refund w c now id
        = (Returned (None, wrapped "request error: %v"), c', []))
  /\ (forall id, id <> "" ->
        Api.ConfirmRefund w c now id
        = (Returned (None, wrapped "request error: %v"), c', []))
  /\ (forall id address, id <> "" -> address <> "" ->
        Api.RevalidateAddress w c now id address
        = (Returned (None, wrapped "error making request: %v"), c', []))
  /\ (forall id, id <> "" ->
        Api.Remove w c now id
        = (Returned (None, wrapped "error making request: %v"), c', [])).
Proof.
  intros Hrl Hdeny c' wrapped.
  pose proof (fun path method params =>
                request_denied w c rl now path method params Hrl Hdeny) as Hreq.
  repeat split.
  - unfold Api.Volume. rewrite Hreq. reflexivity.
  - unfold Api.Status. rewrite Hreq. reflexivity.
  - intros from to address opts H1 H2 H3. unfold Api.Order.
    apply String.eqb_neq in H1, H2, H3. rewrite H1, H2, H3. simpl.
    rewrite Hreq. reflexivity.
  - intros id H1. unfold Api.GetOrder.
    apply String.eqb_neq in H1. rewrite H1, Hreq. reflexivity.
  - intros id H1. unfold Api.Refund.
    apply String.eqb_neq in H1. rewrite H1, Hreq. reflexivity.
  - intros id H1. unfold Api.ConfirmRefund.
    apply String.eqb_neq in H1. rewrite H1, Hreq. reflexivity.
  - intros id address H1 H2. unfold Api.RevalidateAddress.
    apply String.eqb_neq in H1, H2. rewrite H1, H2. simpl.
    rewrite Hreq. reflexivity.
  - intros id H1. unfold Api.Remove.
    apply String.eqb_neq in H1. rewrite H1, Hreq. reflexivity.
Qed.

(** C6 at the failing input: a client with a limiter of capacity 1 spends
    its token on a first call; a second call at the same instant is denied.
    [Volume] then returns the sentinel [RateLimitExceeded], but [GetOrder]
    returns a new error made by [fmt.Errorf] with the verb [%v], which is
    not the sentinel.  Neither hands a request to the network. *)
Theorem GetOrder_denied_is_not_sentinel :
  let c0 := Api.RateLimiter (Api.New "key") 1 1000000000 0 in
  let c1 := client_of (Api.Volume null_server c0 0) in
  rateLimiter c1
  = Some {| tokens := 0; max := 1; interval := 1000000000; last := 0 |}
  /\ Api.GetOrder null_server c1 0 "abc"
     = (Returned
          (None, Some (Errorf "request error: %v" [ArgError RateLimitExceeded])),
        c1, [])
  /\ error_of (result_of (Api.GetOrder null_server c1 0 "abc"))
     <> Some RateLimitExceeded
  /\ Api.Volume null_server c1 0
     = (Returned (None, Some RateLimitExceeded), c1, []).
Proof.
  cbv zeta.
  set (c1 := client_of
               (Api.Volume null_server
                  (Api.RateLimiter (Api.New "key") 1 1000000000 0) 0)).
  assert (Hc1 : c1 = Api.set_rateLimiter (Api.New "key")
                       (Some {| tokens := 0; max := 1;
                                interval := 1000000000; last := 0 |}))
    by reflexivity.
  rewrite Hc1. clear c1 Hc1.
  split; [reflexivity|]. split; [reflexivity|].
  split; [simpl; discriminate | reflexivity].
Qed.

(** The three checks after [request] do not look at the client. *)
Lemma finish_map_client {T : Type} (f : Client -> Client)
    (on_err : error -> error) (on_status : Z -> string -> error)
    (on_decode : error -> error) (decode : string -> lib_error + option T)
    (r : call (Z * string * option error)) :
  Api.finish on_err on_status on_decode decode (map_client f r)
  = map_client f (Api.finish on_err on_status on_decode decode r).
Proof.
  destruct r as [[[[[st body] [err|]]|] c'] sent]; try reflexivity.
  unfold map_client, Api.finish, result_of, client_of, sent_of. simpl.
  destruct (st =? StatusOK); [|reflexivity].
  destruct (decode body); reflexivity.
Qed.

(** [request] reads the fields [baseURL] and [rateLimiter] of the client
    and the package-level [http.DefaultClient]; the field [client] is only
    carried along. *)
Lemma request_ignores_client (w : World) (c : Client) (hc : HttpClient)
    (now : Time) (path method : string) (params : gmap string string) :
  Api.request w (Api.Client c hc) now path method params
  = map_client (fun c' => Api.Client c' hc)
      (Api.request w c now path method params).
Proof.
  unfold Api.request.
  change (rateLimiter (Api.Client c hc)) with (rateLimiter c).
  change (Api.send w (Api.Client c hc) path method params)
    with (Api.send w c path method params).
  destruct (rateLimiter c) as [rl|].
  - destruct (Allow rl now) as [[[|]|] rl'];
      [destruct (Api.send w c path method params)| |]; reflexivity.
  - destruct (Api.send w c path method params). reflexivity.
Qed.

(** C9: the HTTP client installed by the setter [Client] has no effect on
    any call.  [request] and the eight API methods return the same result
    and hand the same requests to the network (through
    [http.DefaultClient]) whatever the field [client] holds, and they carry
    the field along unchanged. *)
Theorem installed_client_is_ignored
    (w : World) (c : Client) (hc : HttpClient) (now : Time) :
  let keep {A : Type} (r : call A) : call A :=
    map_client (fun c' => Api.Client c' hc) r in
  (forall path method params,
      Api.request w (Api.Client c hc) now path method params
      = keep (Api.request w c now path method params))
  /\ Api.Volume w (Api.Client c hc) now = keep (Api.Volume w c now)
  /\ Api.Status w (Api.Client c hc) now = keep (Api.Status w c now)
  /\ (forall from to address opts,
        Api.Order w (Api.Client c hc) now from to address opts
        = keep (Api.Order w c now from to address opts))
  /\ (forall id,
        Api.GetOrder w (Api.Client c hc) now id
        = keep (Api.GetOrder w c now id))
  /\ (forall id,
        Api.Refund w (Api.Client c hc) now id = keep (Api.Refund w c now id))
  /\ (forall id,
        Api.ConfirmRefund w (Api.Client c hc) now id
        = keep (Api.ConfirmRefund w c now id))
  /\ (forall id address,
        Api.RevalidateAddress w (Api.Client c hc) now id address
        = keep (Api.RevalidateAddress w c now id address))
  /\ (forall id,
        Api.Remove w (Api.Client c hc) now id = keep (Api.Remove w c now id)).
Proof.
  cbv zeta. repeat split; intros.
  - apply request_ignores_client.
  - unfold Api.Volume. rewrite request_ignores_client.
    apply finish_map_client.
  - unfold Api.Status. rewrite request_ignores_client.
    apply finish_map_client.
  - unfold Api.Order.
    destruct (String.eqb from "" || String.eqb to "" || String.eqb address "");
      [reflexivity|].
    rewrite request_ignores_client. apply finish_map_client.
  - unfold Api.GetOrder. destruct (String.eqb id ""); [reflexivity|].
    rewrite request_ignores_client. apply finish_map_client.
  - unfold Api.Refund. destruct (String.eqb id ""); [reflexivity|].
    rewrite request_ignores_client. apply finish_map_client.
  - unfold Api.ConfirmRefund. destruct (String.eqb id ""); [reflexivity|].
    rewrite request_ignores_client. apply finish_map_client.
  - unfold Api.RevalidateAddress.
    destruct (String.eqb id "" || String.eqb address ""); [reflexivity|].
    rewrite request_ignores_client. apply finish_map_client.
  - unfold Api.Remove. destruct (String.eqb id ""); [reflexivity|].
    rewrite request_ignores_client. apply finish_map_client.
Qed.

(** C10: a method called with a required argument empty returns its
    validation error at once: the client, and with it the limiter's
    [tokens] and [last], is as it was, and no request went to the
    network. *)
Theorem empty_argument_rejected_before_gate
    (w : World) (c : Client) (now : Time) :
  let rejected {T : Type} (r : call (option T * option error))
      (message : string) : Prop :=
    r = (Returned (None, Some (Errorf message [])), c, []) in
  (forall from to address opts,
      from = "" \/ to = "" \/ address = "" ->
      rejected (Api.Order w c now from to address opts)
        "from, to, and address are required")
  /\ rejected (Api.GetOrder w c now "") "id is required"
  /\ rejected (Api.Refund w c now "") "id is required"
  /\ rejected (Api.ConfirmRefund w c now "") "id is required"
  /\ (forall id address,
        id = "" \/ address = "" ->
        rejected (Api.RevalidateAddress w c now id address)
          "id and address are required")
  /\ rejected (Api.Remove w c now "") "order id is empty".
Proof.
  cbv zeta. repeat split; try reflexivity.
  - intros from to address opts H. unfold Api.Order.
    assert (Hb : String.eqb from "" || String.eqb to "" || String.eqb address ""
                 = true).
    { destruct H as [-> | [-> | ->]]; simpl;
        rewrite ?orb_true_r; reflexivity. }
    rewrite Hb. reflexivity.
  - intros id address H. unfold Api.RevalidateAddress.
    assert (Hb : String.eqb id "" || String.eqb address "" = true).
    { destruct H as [-> | ->]; simpl; rewrite ?orb_true_r; reflexivity. }
    rewrite Hb. reflexivity.
Qed.

Lemma empty_argument_rejected_before_gate_witness :
  let c := Api.set_rateLimiter (Api.New "key")
             (Some {| tokens := 2; max := 3; interval := 10; last := 5 |}) in
  Api.Order null_server c 99 "XMR" "" "addr" None
  = (Returned (None, Some (Errorf "from, to, and address are required" [])),
     c, [])
  /\ Api.RevalidateAddress null_server c 99 "abc" ""
     = (Returned (None, Some (Errorf "id and address are required" [])),
        c, []).
Proof.
  cbv zeta.
  pose proof (empty_argument_rejected_before_gate null_server
                (Api.set_rateLimiter (Api.New "key")
                   (Some {| tokens := 2; max := 3; interval := 10;
                            last := 5 |})) 99)
    as (HOrder & _ & _ & _ & HReval & _).
  split.
  - apply (HOrder "XMR" "" "addr" None). right. left. reflexivity.
  - apply (HReval "abc" ""). right. reflexivity.
Defined.

(** ** Goroutines sharing one limiter *)

Section Goroutines.

Import Concurrent.

Lemma count_app (f : pc -> bool) (l1 l2 : list pc) :
  count f (l1 ++ l2) = (count f l1 + count f l2)%nat.
Proof. induction l1 as [|p l1 IH]; simpl; [reflexivity | rewrite IH; lia]. Qed.

Lemma work_app (l1 l2 : list pc) :
  work (l1 ++ l2) = (work l1 + work l2)%nat.
Proof. induction l1 as [|p l1 IH]; simpl; [reflexivity | rewrite IH; lia]. Qed.

(** Every statement brings its goroutine closer to the return. *)
Lemma step_remaining (clock : Time) (s s' : shared) (p p' : pc) :
  step clock s p = Some (s', p') -> (remaining p' < remaining p)%nat.
Proof.
  destruct p; simpl; intros H;
    repeat match type of H with
           | context [if ?b then _ else _] => destruct b
           end;
    inversion H; subst; simpl; lia.
Qed.

Lemma sched_work (clock : Time) (cfg cfg' : config) :
  sched clock cfg cfg' -> (work (threads cfg') < work (threads cfg))%nat.
Proof.
  intros [s s' p p' before after Hstep]. simpl.
  rewrite !work_app. simpl.
  pose proof (step_remaining _ _ _ _ _ Hstep). lia.
Qed.

(** A goroutine inside the critical section can always make its next
    statement: nothing in the section waits. *)
Lemma inside_can_step (clock : Time) (s : shared) (p : pc) :
  inside p = true -> exists s' p', step clock s p = Some (s', p').
Proof.
  destruct p; simpl; try discriminate; intros _;
    repeat match goal with
           | |- context [if ?b then _ else _] => destruct b
           end; eauto.
Qed.

(** What holds of the goroutines outside the section does not depend on
    the tokens. *)
Lemma at_pc_outside (t0 : Time) (k tok k' tok' : Z) (l : list pc) :
  count inside l = 0%nat ->
  Forall (at_pc t0 k tok) l -> Forall (at_pc t0 k' tok') l.
Proof.
  induction l as [|p l IH]; intros Hc Hall; [constructor|].
  inversion Hall as [|? ? Hp Hl]; subst. simpl in Hc.
  constructor; [|apply IH; [lia | exact Hl]].
  destruct p as [| | | | | | | | |[b|]]; simpl in *; try lia; exact Hp.
Qed.

Lemma count_inside_split (l : list pc) :
  (0 < count inside l)%nat ->
  exists before p after, l = before ++ p :: after /\ inside p = true.
Proof.
  induction l as [|q l IH]; simpl; [lia|]. intros H.
  destruct (inside q) eqn:Hq.
  - exists [], q, l. split; [reflexivity | exact Hq].
  - destruct (IH ltac:(lia)) as (before & p & after & -> & Hp).
    exists (q :: before), p, after. split; [reflexivity | exact Hp].
Qed.

Lemma done_or_split (l : list pc) :
  Forall (fun p => is_done p = true) l
  \/ exists before p after, l = before ++ p :: after /\ is_done p = false.
Proof.
  induction l as [|q l IH]; [left; constructor|].
  destruct (is_done q) eqn:Hq.
  - destruct IH as [IH | (before & p & after & -> & Hp)].
    + left. constructor; assumption.
    + right. exists (q :: before), p, after. split; [reflexivity | exact Hp].
  - right. exists [], q, l. split; [reflexivity | exact Hq].
Qed.

(** When all goroutines have returned, each has returned true or false. *)
Lemma all_done_counts (t0 : Time) (k tok : Z) (l : list pc) :
  Forall (fun p => is_done p = true) l -> Forall (at_pc t0 k tok) l ->
  (count (returned true) l + count (returned false) l)%nat = length l.
Proof.
  induction 1 as [|p l Hp Hl IH]; intros Hall; [reflexivity|].
  inversion Hall as [|? ? Hp' Hl']; subst. specialize (IH Hl').
  destruct p as [| | | | | | | | |[[|]|]]; simpl in *;
    try discriminate; try contradiction; lia.
Qed.

Lemma inv_start (C : Z) (I : Duration) (t0 : Time) (n : nat) :
  0 <= C -> inv C I t0 n (start (NewRateLimiter C I t0) n).
Proof.
  intros HC. unfold inv, start. simpl.
  assert (Hc : forall f, f AtLock = false ->
                         count f (replicate n AtLock) = 0%nat).
  { intros f Hf. induction n as [|n IH]; simpl; [reflexivity|].
    rewrite Hf, IH. reflexivity. }
  rewrite !Hc by reflexivity. rewrite length_replicate.
  repeat split; try lia.
  apply Forall_forall. intros p Hp.
  apply elem_of_replicate in Hp as [-> _]. exact Logic.I.
Qed.

Lemma generated_zero (i : Duration) : i <> 0 -> generated 0 i = 0.
Proof.
  intros Hi. unfold generated. rewrite Z.quot_0_l by exact Hi.
  apply wrap64_id, in_range_nonneg. unfold Int64.max_int. lia.
Qed.

(** The invariant is kept by every statement of every goroutine. *)
Lemma inv_sched (C : Z) (I : Duration) (t0 : Time) (n : nat)
    (cfg cfg' : config) :
  0 <= C <= Int64.max_int -> I <> 0 ->
  inv C I t0 n cfg -> sched t0 cfg cfg' -> inv C I t0 n cfg'.
Proof.
  intros HC HI Hinv Hsched.
  destruct Hsched as [s s' p p' before after Hstep].
  unfold inv in *. cbn [mem threads] in *.
  destruct Hinv as (Hmax & Hint & Hlast & Hlen & Hk & Hf & Hin & Hunl & Hall).
  rewrite !count_app, ?length_app in *. cbn [count length] in *.
  apply Forall_app in Hall as [Hb Hpa].
  apply Forall_cons in Hpa as [Hp Ha].
  set (tb := count (returned true) before) in *.
  set (ta := count (returned true) after) in *.
  set (fb := count (returned false) before) in *.
  set (fa := count (returned false) after) in *.
  assert (Hout : count inside before = 0%nat /\ count inside after = 0%nat).
  { destruct p; simpl in Hstep, Hin; destruct (locked s);
      try discriminate; lia. }
  destruct Hout as [Hob Hoa].
  assert (Hb' : forall k' tok', Forall (at_pc t0 k' tok') before)
    by (intros; eapply at_pc_outside; eassumption).
  assert (Ha' : forall k' tok', Forall (at_pc t0 k' tok') after)
    by (intros; eapply at_pc_outside; eassumption).
  clear Hb Ha.
  assert (Hall' : forall k' tok',
             at_pc t0 k' tok' p' ->
             Forall (at_pc t0 k' tok') (before ++ p' :: after)).
  { intros k' tok' Hp'. apply Forall_app. split; [apply Hb'|].
    apply Forall_cons. split; [exact Hp' | apply Ha']. }
  destruct s as [lk r]. cbn [locked rl] in *.
  destruct p as [| |now|now e|e| | | |[[|]|]|o];
    cbn [step locked rl] in Hstep;
    destruct lk; cbn [inside] in Hin; try lia; try discriminate.
  all: repeat match type of Hstep with
              | context [if ?b then _ else _] => destruct b eqn:?
              end.
  all: inversion Hstep; subst s' p'; clear Hstep.
  all: cbn [locked rl set_tokens set_last tokens max interval last
              inside returned at_pc Bool.eqb] in *.
  all: repeat match goal with
              | H : _ /\ _ |- _ => destruct H
              | H : (_ <? _) = true |- _ => apply Z.ltb_lt in H
              | H : (_ <? _) = false |- _ => apply Z.ltb_ge in H
              | H : (_ =? _) = true |- _ => apply Z.eqb_eq in H
              | H : (_ =? _) = false |- _ => apply Z.eqb_neq in H
              end.
  all: subst; try contradiction; try lia.
  all: rewrite ?Time_Sub_same, ?generated_zero, ?Z.add_0_r in * by assumption.
  all: rewrite ?wrap64_id by (apply in_range_nonneg; lia).
  all: repeat match goal with |- _ /\ _ => split end.
  all: try reflexivity; try lia; try (intros; lia); try discriminate.
  all: apply Hall'; cbn [at_pc]; repeat split; lia.
Qed.

Lemma inv_reach (C : Z) (I : Duration) (t0 : Time) (n : nat) (cfg : config) :
  0 <= C <= Int64.max_int -> I <> 0 ->
  reach t0 (start (NewRateLimiter C I t0) n) cfg -> inv C I t0 n cfg.
Proof.
  intros HC HI Hreach.
  remember (start (NewRateLimiter C I t0) n) as cfg0 eqn:E.
  induction Hreach as [cfg|cfg cfg' cfg'' _ IH Hs].
  - subst cfg. apply inv_start. lia.
  - eapply inv_sched; [exact HC | exact HI | exact (IH E) | exact Hs].
Qed.

Lemma reach_left (clock : Time) (cfg cfg' cfg'' : config) :
  sched clock cfg cfg' -> reach clock cfg' cfg'' -> reach clock cfg cfg''.
Proof.
  intros Hs Hr. induction Hr as [cfg'|cfg' cfg1 cfg2 _ IH Hs'].
  - eapply reach_step; [apply reach_refl | exact Hs].
  - eapply reach_step; [exact (IH Hs) | exact Hs'].
Qed.

(** Running a schedule follows the scheduler. *)
Lemma pick_sched (clock : Time) (cfg cfg' : config) (i : nat) :
  pick clock cfg i = Some cfg' -> sched clock cfg cfg'.
Proof.
  unfold pick. destruct cfg as [s l]. cbn [threads mem].
  destruct (l !! i) as [p|] eqn:Hp; [|discriminate].
  destruct (step clock s p) as [[s' p']|] eqn:Hstep; [|discriminate].
  intros H. inversion H; subst cfg'; clear H.
  rewrite <- (take_drop_middle l i p Hp) at 1.
  apply sched_pick. exact Hstep.
Qed.

Lemma run_reach (clock : Time) (schedule : list nat) :
  forall cfg cfg' : config,
    run clock cfg schedule = Some cfg' -> reach clock cfg cfg'.
Proof.
  induction schedule as [|i rest IH]; intros cfg cfg' H; simpl in H.
  - inversion H. apply reach_refl.
  - destruct (pick clock cfg i) as [cfg1|] eqn:Hp; [|discriminate].
    eapply reach_left; [exact (pick_sched _ _ _ _ Hp) | exact (IH _ _ H)].
Qed.

(** A goroutine that runs [Allow] alone ends where the function [Allow]
    says, with the mutex free again: the statements of the goroutine are
    those of the function. *)
Lemma solo_step (clock : Time) (s s' : shared) (p p' : pc) (cfg : config) :
  step clock s p = Some (s', p') ->
  reach clock (mkConfig s' [p']) cfg -> reach clock (mkConfig s [p]) cfg.
Proof.
  intros Hstep. apply reach_left.
  exact (sched_pick clock s s' p p' [] [] Hstep).
Qed.

Lemma solo_run_is_Allow (r : RateLimiter) (clock : Time) :
  reach clock (start r 1)
    (mkConfig {| locked := false; rl := snd (Allow r clock) |}
              [Done (fst (Allow r clock))]).
Proof.
  destruct r as [tk mx iv ls]. unfold start, Allow, elapsed_of.
  cbn [replicate tokens max interval last].
  set (t1 := Int64.wrap64 (tk + generated (Time_Sub clock ls) iv)).
  destruct (iv =? 0) eqn:Hi; [|destruct (mx <? t1) eqn:Hclamp];
    match goal with
    | |- context [if 0 <? ?t then _ else _] => destruct (0 <? t) eqn:Hcheck
    | _ => idtac
    end.
  all: cbn [fst snd].
  all: repeat (eapply solo_step;
               [cbn [step locked rl set_tokens set_last
                       tokens max interval last];
                fold t1; rewrite ?Hi, ?Hclamp, ?Hcheck; reflexivity|]).
  all: apply reach_refl.
Qed.

(** [n] calls one after the other with the clock standing still: as many
    are admitted as there are tokens, the others are denied. *)
Lemma Allows_same_instant (n : nat) :
  forall r : RateLimiter,
    interval r <> 0 -> 0 <= tokens r <= max r -> max r <= Int64.max_int ->
    let admitted := Nat.min (Z.to_nat (tokens r)) n in
    Allows r (replicate n (last r))
    = (replicate admitted (Returned true)
         ++ replicate (n - admitted) (Returned false),
       {| tokens := tokens r - Z.of_nat admitted; max := max r;
          interval := interval r; last := last r |}).
Proof.
  induction n as [|n IH]; intros r Hi Ht Hm admitted; subst admitted.
  - rewrite Nat.min_0_r. simpl. rewrite Z.sub_0_r. destruct r; reflexivity.
  - cbn [replicate Allows].
    destruct (Z.eq_dec (tokens r) 0) as [H0|H0].
    + rewrite Allow_denies by lia.
      specialize (IH r Hi Ht Hm). cbv zeta in IH. rewrite IH.
      rewrite H0. simpl. rewrite Nat.sub_0_r. reflexivity.
    + rewrite Allow_takes by lia.
      specialize (IH {| tokens := tokens r - 1; max := max r;
                        interval := interval r; last := last r |}).
      cbn [tokens max interval last] in IH. cbv zeta in IH.
      rewrite IH by lia.
      replace (Z.to_nat (tokens r)) with (S (Z.to_nat (tokens r - 1))) by lia.
      rewrite <- Nat.succ_min_distr. cbn [replicate app Nat.sub].
      do 2 f_equal. lia.
Qed.

Lemma all_done_outside (l : list pc) :
  Forall (fun p => is_done p = true) l -> count inside l = 0%nat.
Proof.
  induction 1 as [|p l Hp _ IH]; [reflexivity|].
  destruct p; try discriminate. simpl. exact IH.
Qed.

(** C8: [N] goroutines call [Allow] at the same clock reading on a limiter
    freshly built with capacity [C] and interval [I].  Whatever the
    scheduler does: at most one goroutine is between [Lock] and [Unlock];
    as long as a goroutine has not returned some goroutine can move, and
    every move brings the end closer, so all goroutines return; and once
    they have, exactly [min C N] calls returned true and the others false
    (for [N >= C]: [C] true and [N - C] false), and the limiter is as [N]
    calls one after the other leave it. *)
Theorem concurrent_capacity_bound
    (C : Z) (I : Duration) (t0 : Time) (N : nat) (cfg : config) :
  1 <= C <= Int64.max_int -> 0 < I ->
  reach t0 (start (NewRateLimiter C I t0) N) cfg ->
  (count inside (threads cfg) <= 1)%nat
  /\ (locked (mem cfg) = false -> count inside (threads cfg) = 0%nat)
  /\ (all_done cfg \/ exists cfg', sched t0 cfg cfg')
  /\ (forall cfg', sched t0 cfg cfg' ->
                   (work (threads cfg') < work (threads cfg))%nat)
  /\ (all_done cfg ->
      Z.of_nat (count (returned true) (threads cfg)) = Z.min C (Z.of_nat N)
      /\ Z.of_nat (count (returned false) (threads cfg))
         = Z.of_nat N - Z.min C (Z.of_nat N)
      /\ mem cfg
         = {| locked := false;
              rl := snd (Allows (NewRateLimiter C I t0) (replicate N t0)) |}).
Proof.
  intros HC HI Hreach.
  pose proof (inv_reach C I t0 N cfg ltac:(lia) ltac:(lia) Hreach) as Hinv.
  destruct Hinv as (Hmax & Hint & Hlast & Hlen & Hk & Hf & Hin & Hunl & Hall).
  destruct cfg as [[lk r] l]. cbn [mem threads locked rl] in *.
  split; [destruct lk; lia|].
  split; [intros ->; exact Hin|].
  split; [|split; [intros cfg'; apply sched_work|]].
  - unfold all_done. cbn [threads].
    destruct (done_or_split l) as [Hdone|(before & p & after & -> & Hp)];
      [left; exact Hdone | right].
    destruct lk.
    + destruct (count_inside_split (before ++ p :: after) ltac:(lia))
        as (before' & q & after' & E & Hq).
      destruct (inside_can_step t0 {| locked := true; rl := r |} q Hq)
        as (s' & q' & Hstep).
      rewrite E. eexists. apply sched_pick. exact Hstep.
    + rewrite count_app in Hin. simpl in Hin.
      destruct p; try discriminate; simpl in Hin; try lia.
      eexists. apply sched_pick. reflexivity.
  - unfold all_done. cbn [threads]. intros Hdone.
    pose proof (all_done_counts _ _ _ _ Hdone Hall) as Hcount.
    rewrite (all_done_outside l Hdone) in Hin.
    destruct lk; [discriminate|]. specialize (Hunl eq_refl).
    set (nt := count (returned true) l) in *.
    set (nf := count (returned false) l) in *.
    assert (Hmin : Z.of_nat nt = Z.min C (Z.of_nat N)).
    { destruct (Nat.eq_dec nf 0%nat) as [E|E]; [lia|].
      specialize (Hf ltac:(lia)). lia. }
    split; [exact Hmin|]. split; [lia|].
    pose proof (Allows_same_instant N (NewRateLimiter C I t0)) as Hseq.
    cbn [NewRateLimiter tokens max interval last] in Hseq. cbv zeta in Hseq.
    rewrite Hseq by lia. cbn [snd].
    destruct r as [tk mx iv ls]. cbn [tokens max interval last] in *.
    subst. do 2 f_equal. lia.
Qed.

Lemma concurrent_capacity_bound_witness :
  let cfg :=
    mkConfig {| locked := false;
                rl := {| tokens := 0; max := 2; interval := 1; last := 0 |} |}
             [Done (Returned false); Done (Returned true);
              Done (Returned true)] in
  run 0 (start (NewRateLimiter 2 1 0) 3)
    (replicate 9 1%nat ++ replicate 9 2%nat ++ replicate 8 0%nat) = Some cfg
  /\ Z.of_nat (count (returned true) (threads cfg)) = 2
  /\ Z.of_nat (count (returned false) (threads cfg)) = 1.
Proof.
  cbv zeta. split; [vm_compute; reflexivity|].
  destruct (concurrent_capacity_bound 2 1 0 3
              (mkConfig {| locked := false;
                           rl := {| tokens := 0; max := 2;
                                    interval := 1; last := 0 |} |}
                        [Done (Returned false); Done (Returned true);
                         Done (Returned true)]))
    as (_ & _ & _ & _ & H).
  - unfold Int64.max_int. lia.
  - lia.
  - apply (run_reach 0 (replicate 9 1%nat ++ replicate 9 2%nat
                          ++ replicate 8 0%nat)).
    vm_compute. reflexivity.
  - destruct H as (Ht & Hf & _); [repeat constructor|].
    split; [exact Ht | exact Hf].
Defined.

End Goroutines.

(** * Further properties of the limiter *)

(** One call, away from overflow: the call returns, keeps the invariant,
    and what it admits plus what it leaves is at most what was there plus
    the whole intervals elapsed. *)
Lemma Allow_spends (rl : RateLimiter) (now : Time) :
  bucket_inv rl -> 0 < interval rl -> last rl <= now ->
  max rl + Z.quot (now - last rl) (interval rl) <= Int64.max_int ->
  fst (Allow rl now) <> Panicked
  /\ admissions [fst (Allow rl now)] + tokens (snd (Allow rl now))
     <= tokens rl + Z.quot (now - last rl) (interval rl).
Proof.
  unfold bucket_inv. intros Hinv Hi Hnow Hfit. unfold Allow, elapsed_of.
  destruct (Z.eqb_spec (interval rl) 0); [lia|].
  set (e := Time_Sub now (last rl)).
  assert (He : 0 <= e <= now - last rl).
  { subst e. unfold Time_Sub, Int64.saturate, Int64.min_int, Int64.max_int.
    destruct (Z.ltb_spec (now - last rl) (- 2 ^ 63)); [lia|].
    destruct (Z.ltb_spec (2 ^ 63 - 1) (now - last rl)); lia. }
  assert (Hq : 0 <= Z.quot e (interval rl)
               <= Z.quot (now - last rl) (interval rl)).
  { split; [apply Z.quot_pos; lia | apply Z.quot_le_mono; lia]. }
  unfold generated.
  rewrite (wrap64_id (Z.quot e (interval rl)))
    by (apply in_range_nonneg; lia).
  rewrite wrap64_id by (apply in_range_nonneg; lia).
  set (t1 := tokens rl + Z.quot e (interval rl)) in *.
  destruct (Z.ltb_spec (max rl) t1).
  - destruct (Z.ltb_spec 0 (max rl)); simpl.
    + rewrite wrap64_id by (apply in_range_nonneg; lia).
      split; [discriminate | lia].
    + split; [discriminate | lia].
  - destruct (Z.ltb_spec 0 t1); simpl.
    + rewrite wrap64_id by (apply in_range_nonneg; lia).
      split; [discriminate | lia].
    + split; [discriminate | lia].
Qed.

Lemma quot_split (a b i : Z) :
  0 < i -> 0 <= a -> 0 <= b -> Z.quot a i + Z.quot b i <= Z.quot (a + b) i.
Proof.
  intros Hi Ha Hb. rewrite !Z.quot_div_nonneg by lia.
  apply Z.div_le_lower_bound; [lia|].
  pose proof (Z.mul_div_le a i Hi). pose proof (Z.mul_div_le b i Hi). lia.
Qed.

Lemma Allows_cons (rl : RateLimiter) (now : Time) (rest : list Time) :
  Allows rl (now :: rest)
  = (fst (Allow rl now) :: fst (Allows (snd (Allow rl now)) rest),
     snd (Allows (snd (Allow rl now)) rest)).
Proof.
  simpl. destruct (Allow rl now) as [o rl']. simpl.
  destruct (Allows rl' rest) as [os rl'']. reflexivity.
Qed.

(** The bookkeeping of a whole sequence of calls, away from overflow. *)
Lemma Allows_spend (nows : list Time) :
  forall rl : RateLimiter,
    bucket_inv rl -> 0 < interval rl -> nondecreasing (last rl) nows ->
    max rl + Z.quot (final_reading (last rl) nows - last rl) (interval rl)
    <= Int64.max_int ->
    Forall bucket_inv (states_after rl nows)
    /\ Forall (fun o => o <> Panicked) (fst (Allows rl nows))
    /\ bucket_inv (snd (Allows rl nows))
    /\ admissions (fst (Allows rl nows)) + tokens (snd (Allows rl nows))
       <= tokens rl
          + Z.quot (final_reading (last rl) nows - last rl) (interval rl).
Proof.
  induction nows as [|now rest IH]; intros rl Hinv Hi Hmono Hfit.
  - simpl in *. rewrite Z.sub_diag, Z.quot_0_l by lia.
    repeat split; try constructor; try apply Hinv. lia.
  - cbn [nondecreasing final_reading states_after] in *.
    destruct Hmono as [Hnow Hmono].
    pose proof (nondecreasing_final rest now Hmono) as Hfin.
    assert (Hstep : Z.quot (now - last rl) (interval rl)
                    + Z.quot (final_reading now rest - now) (interval rl)
                    <= Z.quot (final_reading now rest - last rl) (interval rl)).
    { replace (final_reading now rest - last rl)
        with ((now - last rl) + (final_reading now rest - now)) by lia.
      apply quot_split; lia. }
    assert (Hq : 0 <= Z.quot (final_reading now rest - now) (interval rl))
      by (apply Z.quot_pos; lia).
    assert (Hq' : 0 <= Z.quot (now - last rl) (interval rl))
      by (apply Z.quot_pos; lia).
    destruct (Allow_spends rl now Hinv Hi Hnow ltac:(lia)) as [Hret Hone].
    pose proof (Allow_preserves_bucket_inv rl now Hinv Hi Hnow ltac:(lia))
      as Hinv'.
    destruct (Allow_keeps_config rl now) as [Hmax Hint].
    specialize (IH (snd (Allow rl now))).
    rewrite Allow_sets_last, Hmax, Hint in IH.
    destruct (IH Hinv' Hi Hmono ltac:(lia)) as (IH1 & IH2 & IH3 & IH4).
    rewrite Allows_cons. cbn [fst snd].
    split; [constructor; assumption|].
    split; [constructor; assumption|].
    split; [exact IH3|].
    assert (Hadm : admissions (fst (Allow rl now)
                                 :: fst (Allows (snd (Allow rl now)) rest))
                   = admissions [fst (Allow rl now)]
                     + admissions (fst (Allows (snd (Allow rl now)) rest))).
    { destruct (fst (Allow rl now)) as [[|]|]; simpl; lia. }
    rewrite Hadm. lia.
Qed.

(** X1: away from overflow the bucket invariant is kept along any sequence
    of calls.  For a limiter that satisfies [0 <= tokens <= max], has a
    positive interval and is called at clock readings that never go back,
    with [max] plus the whole intervals of the total time within [int],
    every call returns (none panics) and leaves [0 <= tokens <= max]. *)
Theorem bucket_inv_along_calls (rl : RateLimiter) (nows : list Time) :
  bucket_inv rl -> 0 < interval rl -> nondecreasing (last rl) nows ->
  max rl + Z.quot (final_reading (last rl) nows - last rl) (interval rl)
  <= Int64.max_int ->
  Forall bucket_inv (states_after rl nows)
  /\ Forall (fun o => o <> Panicked) (fst (Allows rl nows)).
Proof.
  intros Hinv Hi Hmono Hfit.
  destruct (Allows_spend nows rl Hinv Hi Hmono Hfit) as (H1 & H2 & _).
  split; assumption.
Qed.

Lemma bucket_inv_along_calls_witness :
  Forall bucket_inv
    (states_after {| tokens := 1; max := 3; interval := 10; last := 100 |}
       [104; 104; 109; 125; 170]).
Proof.
  apply (bucket_inv_along_calls
           {| tokens := 1; max := 3; interval := 10; last := 100 |}
           [104; 104; 109; 125; 170]);
    vm_compute; intuition discriminate.
Defined.

(** X2: the admission budget.  Under the same conditions, the number of
    calls admitted in a sequence is at most the tokens the bucket held at
    the start plus one per whole interval between the first [last] and the
    final reading. *)
Theorem admissions_bounded (rl : RateLimiter) (nows : list Time) :
  bucket_inv rl -> 0 < interval rl -> nondecreasing (last rl) nows ->
  max rl + Z.quot (final_reading (last rl) nows - last rl) (interval rl)
  <= Int64.max_int ->
  admissions (fst (Allows rl nows))
  <= tokens rl
     + Z.quot (final_reading (last rl) nows - last rl) (interval rl).
Proof.
  intros Hinv Hi Hmono Hfit.
  destruct (Allows_spend nows rl Hinv Hi Hmono Hfit) as (_ & _ & H3 & H4).
  unfold bucket_inv in H3. lia.
Qed.

Lemma admissions_bounded_witness :
  admissions
    (fst (Allows {| tokens := 1; max := 3; interval := 10; last := 100 |}
            [104; 104; 109; 125; 170]))
  <= 1 + Z.quot (170 - 100) 10.
Proof.
  apply (admissions_bounded
           {| tokens := 1; max := 3; interval := 10; last := 100 |}
           [104; 104; 109; 125; 170]);
    vm_compute; intuition discriminate.
Defined.

(** A call on an empty bucket less than one interval after the previous
    one is denied, and moves [last] all the same. *)
Lemma Allow_too_early (rl : RateLimiter) (now : Time) :
  tokens rl = 0 -> 0 <= max rl -> 0 < interval rl ->
  last rl <= now < last rl + interval rl ->
  Allow rl now
  = (Returned false,
     {| tokens := 0; max := max rl; interval := interval rl; last := now |}).
Proof.
  intros Ht Hm Hi Hnow. unfold Allow, elapsed_of.
  destruct (Z.eqb_spec (interval rl) 0); [lia|].
  set (e := Time_Sub now (last rl)).
  assert (He : 0 <= e <= now - last rl).
  { subst e. unfold Time_Sub, Int64.saturate, Int64.min_int, Int64.max_int.
    destruct (Z.ltb_spec (now - last rl) (- 2 ^ 63)); [lia|].
    destruct (Z.ltb_spec (2 ^ 63 - 1) (now - last rl)); lia. }
  unfold generated. rewrite Z.quot_small by lia.
  rewrite (wrap64_id 0) by (apply in_range_nonneg; unfold Int64.max_int; lia).
  rewrite Z.add_0_r, Ht.
  rewrite (wrap64_id 0) by (apply in_range_nonneg; unfold Int64.max_int; lia).
  destruct (Z.ltb_spec (max rl) 0); [lia|]. reflexivity.
Qed.

(** X3: polling faster than the refill interval starves.  On an empty
    bucket, if every call comes less than one interval after the previous
    call, every call is denied and the bucket stays empty, however long the
    polling goes on: each denied call resets [last] and drops the time
    elapsed so far. *)
Theorem fast_polling_starves (nows : list Time) :
  forall rl : RateLimiter,
    tokens rl = 0 -> 0 <= max rl -> 0 < interval rl ->
    polled_faster (interval rl) (last rl) nows ->
    Allows rl nows
    = (replicate (length nows) (Returned false),
       {| tokens := 0; max := max rl; interval := interval rl;
          last := final_reading (last rl) nows |}).
Proof.
  induction nows as [|now rest IH]; intros rl Ht Hm Hi Hpoll.
  - simpl. destruct rl; simpl in *; subst; reflexivity.
  - destruct Hpoll as [Hnow Hrest]. cbn [Allows length replicate].
    rewrite Allow_too_early by assumption.
    specialize (IH {| tokens := 0; max := max rl; interval := interval rl;
                      last := now |}).
    cbn [tokens max interval last] in IH.
    rewrite IH by (assumption || reflexivity). reflexivity.
Qed.

Lemma fast_polling_starves_witness :
  fst (Allows {| tokens := 0; max := 3; interval := 10; last := 100 |}
         [109; 118; 127; 136; 145])
  = replicate 5 (Returned false).
Proof.
  rewrite (fast_polling_starves [109; 118; 127; 136; 145]
             {| tokens := 0; max := 3; interval := 10; last := 100 |});
    simpl; try lia; reflexivity.
Defined.

(** The first call after an idle period long enough to refill the bucket
    finds it full, whatever it held before. *)
Lemma Allow_after_long_idle (rl : RateLimiter) (d : Duration) :
  bucket_inv rl -> 1 <= max rl -> 0 < interval rl ->
  max rl * interval rl <= d -> d <= Int64.max_int ->
  max rl + Z.quot d (interval rl) <= Int64.max_int ->
  Allow rl (last rl + d)
  = (Returned true,
     {| tokens := max rl - 1; max := max rl; interval := interval rl;
        last := last rl + d |}).
Proof.
  unfold bucket_inv. intros Hinv Hm Hi Hd Hfit Hsum. unfold Allow, elapsed_of.
  rewrite Time_Sub_fits by nia.
  destruct (Z.eqb_spec (interval rl) 0); [lia|].
  assert (Hq : max rl <= Z.quot d (interval rl)).
  { rewrite Z.quot_div_nonneg by nia. apply Z.div_le_lower_bound; lia. }
  unfold generated.
  rewrite (wrap64_id (Z.quot d (interval rl)))
    by (apply in_range_nonneg; lia).
  rewrite wrap64_id by (apply in_range_nonneg; lia).
  set (t1 := tokens rl + Z.quot d (interval rl)) in *.
  destruct (Z.ltb_spec (max rl) t1) as [Hlt|Hge].
  - destruct (Z.ltb_spec 0 (max rl)); [|lia].
    rewrite wrap64_id by (apply in_range_nonneg; lia). reflexivity.
  - assert (Ht1 : t1 = max rl) by lia. rewrite Ht1.
    destruct (Z.ltb_spec 0 (max rl)); [|lia].
    rewrite wrap64_id by (apply in_range_nonneg; lia). reflexivity.
Qed.

(** X4: a full burst after a long idle period.  Whatever the bucket holds
    (within the invariant), after an idle period of at least
    [max * interval] that is a [time.Duration], exactly [max] calls made at
    once are admitted and the next is denied: time beyond the refill of the
    bucket is not banked. *)
Theorem full_burst_after_idle (rl : RateLimiter) (d : Duration) :
  bucket_inv rl -> 1 <= max rl -> 0 < interval rl ->
  max rl * interval rl <= d -> d <= Int64.max_int ->
  max rl + Z.quot d (interval rl) <= Int64.max_int ->
  fst (Allows rl (replicate (Z.to_nat (max rl) + 1) (last rl + d)))
  = replicate (Z.to_nat (max rl)) (Returned true) ++ [Returned false].
Proof.
  intros Hinv Hm Hi Hd Hfit Hsum.
  assert (Hq : 0 <= Z.quot d (interval rl)) by (apply Z.quot_pos; nia).
  replace (Z.to_nat (max rl) + 1)%nat
    with (S (S (Z.to_nat (max rl - 1)))) by lia.
  replace (Z.to_nat (max rl)) with (S (Z.to_nat (max rl - 1))) by lia.
  change (replicate (S (S (Z.to_nat (max rl - 1)))) (last rl + d))
    with (last rl + d :: replicate (S (Z.to_nat (max rl - 1))) (last rl + d)).
  rewrite Allows_cons.
  rewrite Allow_after_long_idle by assumption. cbn [fst snd].
  pose proof (drain (Z.to_nat (max rl - 1))
                {| tokens := max rl - 1; max := max rl;
                   interval := interval rl; last := last rl + d |}) as H.
  cbn [tokens max interval last] in H. unfold Time in *.
  rewrite H by lia. reflexivity.
Qed.

Lemma full_burst_after_idle_witness :
  fst (Allows {| tokens := 1; max := 3; interval := 10; last := 100 |}
         [135; 135; 135; 135])
  = [Returned true; Returned true; Returned true; Returned false].
Proof.
  apply (full_burst_after_idle
           {| tokens := 1; max := 3; interval := 10; last := 100 |} 35);
    vm_compute; intuition discriminate.
Defined.

(** X5: calls at one instant, from any state.  A limiter within the
    invariant that is called [n] times with no time elapsed since [last]
    admits the first [min tokens n] calls, denies the others, and is left
    with the tokens not taken. *)
Theorem same_instant_admissions (rl : RateLimiter) (n : nat) :
  interval rl <> 0 -> bucket_inv rl -> max rl <= Int64.max_int ->
  let admitted := Nat.min (Z.to_nat (tokens rl)) n in
  fst (Allows rl (replicate n (last rl)))
  = replicate admitted (Returned true)
      ++ replicate (n - admitted) (Returned false)
  /\ tokens (snd (Allows rl (replicate n (last rl))))
     = tokens rl - Z.of_nat admitted.
Proof.
  intros Hi Hinv Hm admitted.
  pose proof (Allows_same_instant n rl Hi Hinv Hm) as H. cbv zeta in H.
  fold admitted in H. rewrite H. split; reflexivity.
Qed.

Lemma same_instant_admissions_witness :
  fst (Allows {| tokens := 2; max := 5; interval := 10; last := 100 |}
         [100; 100; 100; 100])
  = [Returned true; Returned true; Returned false; Returned false].
Proof.
  apply (same_instant_admissions
           {| tokens := 2; max := 5; interval := 10; last := 100 |} 4);
    vm_compute; intuition discriminate.
Defined.

(** X6: a limiter whose capacity is below one denies every call of every
    sequence, at any clock readings and from any state, as long as its
    interval is not zero. *)
Theorem no_capacity_always_denies (nows : list Time) :
  forall rl : RateLimiter,
    max rl < 1 -> interval rl <> 0 ->
    fst (Allows rl nows) = replicate (length nows) (Returned false).
Proof.
  induction nows as [|now rest IH]; intros rl Hm Hi; [reflexivity|].
  rewrite Allows_cons. cbn [fst length replicate].
  destruct (Allow_no_capacity_denies rl now Hm Hi) as [Hdeny _].
  destruct (Allow_keeps_config rl now) as [Hmax Hint].
  rewrite Hdeny, IH by (rewrite ?Hmax, ?Hint; assumption). reflexivity.
Qed.

Lemma no_capacity_always_denies_witness :
  fst (Allows (NewRateLimiter 0 1000 0) [0; 5000; 900000])
  = [Returned false; Returned false; Returned false].
Proof.
  apply (no_capacity_always_denies [0; 5000; 900000] (NewRateLimiter 0 1000 0));
    simpl; lia.
Defined.

(** * Further properties of the call path *)

Lemma Allow_panics_iff (rl : RateLimiter) (now : Time) :
  fst (Allow rl now) = Panicked <-> interval rl = 0.
Proof.
  unfold Allow. destruct (Z.eqb_spec (interval rl) 0) as [E|E].
  - simpl. tauto.
  - match goal with |- context [if 0 <? ?t then _ else _] =>
      destruct (0 <? t) end; simpl; split; (discriminate || contradiction).
Qed.

Lemma request_panics_iff (w : World) (c : Client) (now : Time)
    (path method : string) (params : gmap string string) :
  (result_of (Api.request w c now path method params) = Panicked
   <-> zero_interval c)
  /\ (zero_interval c ->
      sent_of (Api.request w c now path method params) = []).
Proof.
  unfold Api.request, zero_interval.
  destruct (rateLimiter c) as [rl|] eqn:Hrl.
  - pose proof (Allow_panics_iff rl now) as Hp.
    destruct (Allow rl now) as [[[|]|] rl'] eqn:HA; simpl in Hp.
    + destruct (Api.send w c path method params) as [r sent].
      unfold result_of, sent_of. simpl. split.
      * split; [discriminate|]. intros (rl0 & E & Hi). inversion E; subst.
        apply Hp in Hi. discriminate.
      * intros (rl0 & E & Hi). inversion E; subst.
        apply Hp in Hi. discriminate.
    + unfold result_of, sent_of. simpl. split; [|reflexivity].
      split; [discriminate|]. intros (rl0 & E & Hi). inversion E; subst.
      apply Hp in Hi. discriminate.
    + unfold result_of, sent_of. simpl. split; [|reflexivity].
      split; [|reflexivity]. intros _. exists rl. split; [reflexivity|].
      apply Hp. reflexivity.
  - destruct (Api.send w c path method params) as [r sent].
    unfold result_of, sent_of. simpl. split.
    + split; [discriminate|]. intros (rl0 & E & _). discriminate.
    + intros (rl0 & E & _). discriminate.
Qed.

(** The checks after [request] neither raise nor catch a panic, and send
    nothing of their own. *)
Lemma finish_panics_iff {T : Type}
    (on_err : error -> error) (on_status : Z -> string -> error)
    (on_decode : error -> error) (decode : string -> lib_error + option T)
    (r : call (Z * string * option error)) :
  (result_of (Api.finish on_err on_status on_decode decode r) = Panicked
   <-> result_of r = Panicked)
  /\ sent_of (Api.finish on_err on_status on_decode decode r) = sent_of r
  /\ client_of (Api.finish on_err on_status on_decode decode r) = client_of r.
Proof.
  destruct r as [[[[[st body] [err|]]|] c'] sent];
    unfold Api.finish, result_of, sent_of, client_of; simpl;
    try (repeat split; intros; (discriminate || reflexivity)).
  destruct (st =? StatusOK); [destruct (decode body)|]; simpl;
    repeat split; intros; (discriminate || reflexivity).
Qed.

Lemma finish_request_panics {T : Type} (w : World) (c : Client) (now : Time)
    (on_err : error -> error) (on_status : Z -> string -> error)
    (on_decode : error -> error) (decode : string -> lib_error + option T)
    (path method : string) (params : gmap string string) :
  let r := Api.finish on_err on_status on_decode decode
             (Api.request w c now path method params) in
  (result_of r = Panicked <-> zero_interval c)
  /\ (result_of r = Panicked -> sent_of r = []).
Proof.
  cbv zeta.
  destruct (finish_panics_iff on_err on_status on_decode decode
              (Api.request w c now path method params)) as (Hp & Hs & _).
  destruct (request_panics_iff w c now path method params) as [Hq Hz].
  rewrite Hs. split; [tauto|]. intros H. apply Hz, Hq, Hp, H.
Qed.

(** X7: a call panics exactly when the client's limiter has a zero interval
    (the division of line 38 in [Allow]); the panic comes before any
    request is sent.  This holds for [request] and for each API method
    called with its required arguments; with no limiter, or a limiter whose
    interval is not zero, no call ever panics. *)
Theorem calls_panic_iff_zero_interval (w : World) (c : Client) (now : Time) :
  let panics {A : Type} (r : call A) : Prop :=
    (result_of r = Panicked <-> zero_interval c)
    /\ (result_of r = Panicked -> sent_of r = []) in
  (forall path method params,
      panics (Api.request w c now path method params))
  /\ panics (Api.Volume w c now)
  /\ panics (Api.Status w c now)
  /\ (forall from to address opts,
        from <> "" -> to <> "" -> address <> "" ->
        panics (Api.Order w c now from to address opts))
  /\ (forall id, id <> "" -> panics (Api.GetOrder w c now id))
  /\ (forall id, id <> "" -> panics (Api.Refund w c now id))
  /\ (forall id, id <> "" -> panics (Api.ConfirmRefund w c now id))
  /\ (forall id address, id <> "" -> address <> "" ->
        panics (Api.RevalidateAddress w c now id address))
  /\ (forall id, id <> "" -> panics (Api.Remove w c now id)).
Proof.
  cbv zeta.
  split.
  { intros path method params.
    destruct (request_panics_iff w c now path method params) as [Hq Hz].
    split; [exact Hq|]. intros H. apply Hz, Hq, H. }
  split; [apply finish_request_panics|].
  split; [apply finish_request_panics|].
  split.
  { intros from to address opts H1 H2 H3. unfold Api.Order.
    apply String.eqb_neq in H1, H2, H3. rewrite H1, H2, H3. simpl orb.
    apply finish_request_panics. }
  split.
  { intros id H1. unfold Api.GetOrder. apply String.eqb_neq in H1.
    rewrite H1. apply finish_request_panics. }
  split.
  { intros id H1. unfold Api.Refund. apply String.eqb_neq in H1.
    rewrite H1. apply finish_request_panics. }
  split.
  { intros id H1. unfold Api.ConfirmRefund. apply String.eqb_neq in H1.
    rewrite H1. apply finish_request_panics. }
  split.
  { intros id address H1 H2. unfold Api.RevalidateAddress.
    apply String.eqb_neq in H1, H2. rewrite H1, H2. simpl orb.
    apply finish_request_panics. }
  intros id H1. unfold Api.Remove. apply String.eqb_neq in H1.
  rewrite H1. apply finish_request_panics.
Qed.

Lemma calls_panic_iff_zero_interval_witness :
  let c := Api.RateLimiter (Api.New "key") 5 0 0 in
  result_of (Api.GetOrder null_server c 7 "abc") = Panicked
  /\ sent_of (Api.GetOrder null_server c 7 "abc") = [].
Proof.
  cbv zeta.
  pose proof (calls_panic_iff_zero_interval null_server
                (Api.RateLimiter (Api.New "key") 5 0 0) 7)
    as (_ & _ & _ & _ & HGet & _).
  destruct (HGet "abc" ltac:(discriminate)) as [Hiff Hsent].
  assert (Hp : result_of
                 (Api.GetOrder null_server
                    (Api.RateLimiter (Api.New "key") 5 0 0) 7 "abc")
               = Panicked).
  { apply Hiff. exists (NewRateLimiter 5 0 0). split; reflexivity. }
  split; [exact Hp | exact (Hsent Hp)].
Defined.

Lemma request_ignores_apiKey (w : World) (c : Client) (key : string)
    (now : Time) (path method : string) (params : gmap string string) :
  Api.request w (with_apiKey c key) now path method params
  = map_client (fun c' => with_apiKey c' key)
      (Api.request w c now path method params).
Proof.
  unfold Api.request.
  change (rateLimiter (with_apiKey c key)) with (rateLimiter c).
  change (Api.send w (with_apiKey c key) path method params)
    with (Api.send w c path method params).
  destruct (rateLimiter c) as [rl|].
  - destruct (Allow rl now) as [[[|]|] rl'];
      [destruct (Api.send w c path method params)| |]; reflexivity.
  - destruct (Api.send w c path method params). reflexivity.
Qed.

(** X8: the API key is never used.  [New] stores the key in the client, but
    no call reads it: [request] and the eight API methods return the same
    result and send the same requests whatever the key is, so no request
    carries it. *)
Theorem api_key_is_never_used
    (w : World) (c : Client) (key : string) (now : Time) :
  let keep {A : Type} (r : call A) : call A :=
    map_client (fun c' => with_apiKey c' key) r in
  (forall path method params,
      Api.request w (with_apiKey c key) now path method params
      = keep (Api.request w c now path method params))
  /\ Api.Volume w (with_apiKey c key) now = keep (Api.Volume w c now)
  /\ Api.Status w (with_apiKey c key) now = keep (Api.Status w c now)
  /\ (forall from to address opts,
        Api.Order w (with_apiKey c key) now from to address opts
        = keep (Api.Order w c now from to address opts))
  /\ (forall id,
        Api.GetOrder w (with_apiKey c key) now id
        = keep (Api.GetOrder w c now id))
  /\ (forall id,
        Api.Refund w (with_apiKey c key) now id
        = keep (Api.Refund w c now id))
  /\ (forall id,
        Api.ConfirmRefund w (with_apiKey c key) now id
        = keep (Api.ConfirmRefund w c now id))
  /\ (forall id address,
        Api.RevalidateAddress w (with_apiKey c key) now id address
        = keep (Api.RevalidateAddress w c now id address))
  /\ (forall id,
        Api.Remove w (with_apiKey c key) now id
        = keep (Api.Remove w c now id))
  /\ (forall key1 key2 id,
        result_of (Api.GetOrder w (Api.New key1) now id)
        = result_of (Api.GetOrder w (Api.New key2) now id)
        /\ sent_of (Api.GetOrder w (Api.New key1) now id)
           = sent_of (Api.GetOrder w (Api.New key2) now id)).
Proof.
  cbv zeta. repeat match goal with |- _ /\ _ => split end; intros.
  - apply request_ignores_apiKey.
  - unfold Api.Volume. rewrite request_ignores_apiKey.
    apply finish_map_client.
  - unfold Api.Status. rewrite request_ignores_apiKey.
    apply finish_map_client.
  - unfold Api.Order.
    destruct (String.eqb from "" || String.eqb to "" || String.eqb address "");
      [reflexivity|].
    rewrite request_ignores_apiKey. apply finish_map_client.
  - unfold Api.GetOrder. destruct (String.eqb id ""); [reflexivity|].
    rewrite request_ignores_apiKey. apply finish_map_client.
  - unfold Api.Refund. destruct (String.eqb id ""); [reflexivity|].
    rewrite request_ignores_apiKey. apply finish_map_client.
  - unfold Api.ConfirmRefund. destruct (String.eqb id ""); [reflexivity|].
    rewrite request_ignores_apiKey. apply finish_map_client.
  - unfold Api.RevalidateAddress.
    destruct (String.eqb id "" || String.eqb address ""); [reflexivity|].
    rewrite request_ignores_apiKey. apply finish_map_client.
  - unfold Api.Remove. destruct (String.eqb id ""); [reflexivity|].
    rewrite request_ignores_apiKey. apply finish_map_client.
  - change (Api.New key1) with (with_apiKey (Api.New key2) key1).
    unfold Api.GetOrder. destruct (String.eqb id ""); [split; reflexivity|].
    rewrite request_ignores_apiKey, finish_map_client. split; reflexivity.
Qed.




Lemma send_success_sent (w : World) (c : Client) (path method : string)
    (params : gmap string string) (st : Z) (body : string) :
  fst (Api.send w c path method params) = (st, body, None) ->
  length (snd (Api.send w c path method params)) = 1%nat.
Proof.
  unfold Api.send.
  destruct (http_NewRequest w method (Api.fullURL c path)) as [e|req0];
    [simpl; discriminate|].
  match goal with |- context [HttpClient_Do ?a ?b ?r] =>
    destruct (HttpClient_Do a b r) as [e|res] end; [simpl; discriminate|].
  destruct (Body res); simpl; [discriminate | reflexivity].
Qed.

(** [request] returns a nil error exactly when the gate admits the call
    and the HTTP path went through. *)
Lemma request_success (w : World) (c : Client) (now : Time)
    (path method : string) (params : gmap string string)
    (st : Z) (body : string) :
  result_of (Api.request w c now path method params)
  = Returned (st, body, None)
  <-> admitted c now
      /\ fst (Api.send w c path method params) = (st, body, None).
Proof.
  unfold Api.request, admitted.
  destruct (rateLimiter c) as [rl|].
  - destruct (Allow rl now) as [[[|]|] rl']; simpl.
    + destruct (Api.send w c path method params) as [r sent].
      unfold result_of. simpl. split.
      * intros H. inversion H. split; reflexivity.
      * intros [_ ->]. reflexivity.
    + unfold result_of. simpl. split; [discriminate|].
      intros [H _]. discriminate.
    + unfold result_of. simpl. split; [discriminate|].
      intros [H _]. discriminate.
  - destruct (Api.send w c path method params) as [r sent].
    unfold result_of. simpl. split.
    + intros H. inversion H. split; [exact I | reflexivity].
    + intros [_ ->]. reflexivity.
Qed.

Lemma request_success_sent (w : World) (c : Client) (now : Time)
    (path method : string) (params : gmap string string)
    (st : Z) (body : string) :
  result_of (Api.request w c now path method params)
  = Returned (st, body, None) ->
  length (sent_of (Api.request w c now path method params)) = 1%nat.
Proof.
  intros H. pose proof H as H'. apply request_success in H' as [Hadm Hsend].
  apply send_success_sent in Hsend. revert H Hsend.
  unfold Api.request, sent_of, result_of, admitted in *.
  destruct (rateLimiter c) as [rl|].
  - destruct (Allow rl now) as [[[|]|] rl']; simpl in *; try discriminate.
    destruct (Api.send w c path method params) as [r sent]. simpl. auto.
  - destruct (Api.send w c path method params) as [r sent]. simpl. auto.
Qed.

(** What the three checks after [request] let through. *)
Lemma finish_cases {T : Type}
    (on_err : error -> error) (on_status : Z -> string -> error)
    (on_decode : error -> error) (decode : string -> lib_error + option T)
    (r : call (Z * string * option error)) (res : option T) :
  (forall e, result_of (Api.finish on_err on_status on_decode decode r)
             = Returned (res, Some e) -> res = None)
  /\ (result_of (Api.finish on_err on_status on_decode decode r)
      = Returned (res, None)
      <-> exists body, result_of r = Returned (StatusOK, body, None)
                       /\ decode body = inr res).
Proof.
  destruct r as [[[[[st body] [err|]]|] c'] sent];
    unfold Api.finish, result_of; simpl.
  - split; [intros e H; inversion H; reflexivity|].
    split; [discriminate | intros (b & H & _); discriminate].
  - destruct (Z.eqb_spec st StatusOK) as [->|Hst].
    + destruct (decode body) as [e|v] eqn:Hd; simpl.
      * split; [intros e' H; inversion H; reflexivity|].
        split; [discriminate|]. intros (b & H & Hb). inversion H; subst.
        congruence.
      * split; [discriminate|]. split.
        -- intros H. inversion H; subst. exists body. split; [reflexivity|].
           exact Hd.
        -- intros (b & H & Hb). inversion H; subst. congruence.
    + simpl. split; [intros e H; inversion H; reflexivity|].
      split; [discriminate|]. intros (b & H & _). inversion H. contradiction.
  - split; [discriminate|]. split; [discriminate|].
    intros (b & H & _). discriminate.
Qed.

Lemma finish_request_outcome {T : Type} (w : World) (c : Client) (now : Time)
    (on_err : error -> error) (on_status : Z -> string -> error)
    (on_decode : error -> error) (decode : string -> lib_error + option T)
    (path method : string) (params : gmap string string) (res : option T) :
  let r := Api.finish on_err on_status on_decode decode
             (Api.request w c now path method params) in
  (forall e, result_of r = Returned (res, Some e) -> res = None)
  /\ (result_of r = Returned (res, None) ->
      length (sent_of r) = 1%nat)
  /\ (result_of r = Returned (res, None)
      <-> admitted c now
          /\ exists body,
               fst (Api.send w c path method params) = (StatusOK, body, None)
               /\ decode body = inr res).
Proof.
  cbv zeta.
  destruct (finish_cases on_err on_status on_decode decode
              (Api.request w c now path method params) res) as [Herr Hok].
  destruct (finish_panics_iff on_err on_status on_decode decode
              (Api.request w c now path method params)) as (_ & Hs & _).
  split; [exact Herr|]. split.
  - intros H. apply Hok in H as (body & Hreq & _). rewrite Hs.
    exact (request_success_sent _ _ _ _ _ _ _ _ Hreq).
  - rewrite Hok. split.
    + intros (body & Hreq & Hd). apply request_success in Hreq as [Ha Hsend].
      split; [exact Ha|]. exists body. split; assumption.
    + intros (Ha & body & Hsend & Hd). exists body. split; [|exact Hd].
      apply request_success. split; assumption.
Qed.



(** X11: when a call succeeds.  An API method returns a nil error exactly
    when its required arguments are non-empty, the gate admits the call
    (no limiter, or [Allow] returns true), the request is built and sent,
    the body is read, the status is 200 and the body decodes; the result is
    then the decoded value.  Any other status, 2xx or not, is an error. *)
Theorem success_iff_200_and_decoded (w : World) (c : Client) (now : Time) :
  let ok {T : Type} (r : call (option T * option error)) (valid : Prop)
      (path : string) (params : gmap string string)
      (decode : string -> lib_error + option T) : Prop :=
    forall v : option T,
      result_of r = Returned (v, None)
      <-> valid /\ admitted c now
          /\ exists body,
               fst (Api.send w c path MethodGet params)
               = (StatusOK, body, None)
               /\ decode body = inr v in
  ok (Api.Volume w c now) True "volume" ∅ (Unmarshal_GetVolumeResponse w)
  /\ ok (Api.Status w c now) True "status" ∅ (Unmarshal_Status w)
  /\ (forall from to address opts,
        ok (Api.Order w c now from to address opts)
           (from <> "" /\ to <> "" /\ address <> "")
           "create" (Api.Order_params from to address opts)
           (Unmarshal_CreateOrderResposnse w))
  /\ (forall id,
        ok (Api.GetOrder w c now id) (id <> "")
           "order" (<["orderid" := id]> ∅) (Unmarshal_OrderResponse w))
  /\ (forall id,
        ok (Api.Refund w c now id) (id <> "")
           "order/refund" (<["orderid" := id]> ∅)
           (Unmarshal_ResultResponse w))
  /\ (forall id,
        ok (Api.ConfirmRefund w c now id) (id <> "")
           "order/refund_confirm" (<["orderid" := id]> ∅)
           (Unmarshal_ResultResponse w))
  /\ (forall id address,
        ok (Api.RevalidateAddress w c now id address)
           (id <> "" /\ address <> "")
           "order/revalidate_address"
           (<["to_address" := address]> (<["orderid" := id]> ∅))
           (Unmarshal_ResultResponse w))
  /\ (forall id,
        ok (Api.Remove w c now id) (id <> "")
           "order/remove" (<["orderid" := id]> ∅)
           (Unmarshal_ResultResponse w)).
Proof.
  cbv zeta.
  assert (Hfin : forall (T : Type) on_err on_status on_decode
                        (decode : string -> lib_error + option T)
                        path params (valid : Prop) (v : option T),
             valid ->
             result_of (Api.finish on_err on_status on_decode decode
                          (Api.request w c now path MethodGet params))
             = Returned (v, None)
             <-> valid /\ admitted c now
                 /\ exists body,
                      fst (Api.send w c path MethodGet params)
                      = (StatusOK, body, None)
                      /\ decode body = inr v).
  { intros T on_err on_status on_decode decode path params valid v Hv.
    destruct (finish_request_outcome w c now on_err on_status on_decode
                decode path MethodGet params v) as (_ & _ & H).
    rewrite H. tauto. }
  assert (Hearly : forall (T : Type) (err : error) (valid P : Prop)
                          (v : option T),
             ~ valid ->
             result_of (Api.early (T := T) c err) = Returned (v, None)
             <-> valid /\ P).
  { intros T err valid P v Hn. unfold Api.early, result_of. simpl.
    split; [discriminate | tauto]. }
  repeat match goal with |- _ /\ _ => split end; intros.
  - apply Hfin. exact I.
  - apply Hfin. exact I.
  - unfold Api.Order.
    destruct (String.eqb_spec from "") as [->|H1]; simpl orb;
      [apply Hearly; tauto|].
    destruct (String.eqb_spec to "") as [->|H2]; simpl orb;
      [apply Hearly; tauto|].
    destruct (String.eqb_spec address "") as [->|H3]; simpl orb;
      [apply Hearly; tauto|].
    apply Hfin. tauto.
  - unfold Api.GetOrder. destruct (String.eqb_spec id "") as [->|H1];
      [apply Hearly; tauto | apply Hfin; exact H1].
  - unfold Api.Refund. destruct (String.eqb_spec id "") as [->|H1];
      [apply Hearly; tauto | apply Hfin; exact H1].
  - unfold Api.ConfirmRefund. destruct (String.eqb_spec id "") as [->|H1];
      [apply Hearly; tauto | apply Hfin; exact H1].
  - unfold Api.RevalidateAddress.
    destruct (String.eqb_spec id "") as [->|H1]; simpl orb;
      [apply Hearly; tauto|].
    destruct (String.eqb_spec address "") as [->|H2]; simpl orb;
      [apply Hearly; tauto|].
    apply Hfin. tauto.
  - unfold Api.Remove. destruct (String.eqb_spec id "") as [->|H1];
      [apply Hearly; tauto | apply Hfin; exact H1].
Qed.

Lemma success_iff_200_and_decoded_witness :
  result_of (Api.GetOrder null_server (Api.New "key") 0 "abc")
  = Returned (None, None).
Proof.
  pose proof (success_iff_200_and_decoded null_server (Api.New "key") 0)
    as (_ & _ & _ & HGet & _).
  apply (HGet "abc" None). split; [discriminate|]. split; [exact I|].
  exists "null". split; reflexivity.
Defined.

(** X12: the query parameters of [Order].  The three required parameters
    are always present with the caller's values, and no option can
    overwrite them; each optional parameter is present exactly when its
    option is non-empty ([aggregation]: when it is set, as yes or no); no
    other key is ever added. *)
Theorem Order_params_keys (from to : CryptoCurrency) (address : string)
    (opts : option OrderOptions) :
  let params := Api.Order_params from to address opts in
  let optional (field : OrderOptions -> string) : option string :=
    match opts with
    | Some o => if String.eqb (field o) "" then None else Some (field o)
    | None => None
    end in
  params !! "from_currency" = Some from
  /\ params !! "to_currency" = Some to
  /\ params !! "to_address" = Some address
  /\ params !! "refund_address" = optional RefundAddress
  /\ params !! "rate_mode" = optional RateMode
  /\ params !! "ref" = optional ReferrerID
  /\ params !! "fee_option" = optional FeeOption
  /\ params !! "aggregation"
     = match opts with
       | Some o => match Aggregation o with
                   | Some true => Some "yes"
                   | Some false => Some "no"
                   | None => None
                   end
       | None => None
       end
  /\ (forall key : string,
        key <> "from_currency" -> key <> "to_currency" ->
        key <> "to_address" -> key <> "refund_address" ->
        key <> "rate_mode" -> key <> "ref" -> key <> "fee_option" ->
        key <> "aggregation" ->
        params !! key = None).
Proof.
  cbv zeta. unfold Api.Order_params.
  destruct opts as [[ra rm ri fo ag]|]; cbn [RefundAddress RateMode ReferrerID
                                               FeeOption Aggregation].
  - destruct (String.eqb ra ""), (String.eqb rm ""), (String.eqb ri ""),
      (String.eqb fo ""), ag as [[|]|];
      repeat match goal with |- _ /\ _ => split end; intros;
      simplify_map_eq; reflexivity.
  - repeat match goal with |- _ /\ _ => split end; intros;
      simplify_map_eq; reflexivity.
Qed.

Lemma Order_params_keys_witness :
  Api.Order_params "XMR" "BTC" "addr"
    (Some {| RefundAddress := ""; RateMode := "flat"; ReferrerID := "";
             FeeOption := ""; Aggregation := Some false |})
  !! "nonce" = None.
Proof.
  pose proof (Order_params_keys "XMR" "BTC" "addr"
                (Some {| RefundAddress := ""; RateMode := "flat";
                         ReferrerID := ""; FeeOption := "";
                         Aggregation := Some false |}))
    as (_ & _ & _ & _ & _ & _ & _ & _ & H).
  apply H; discriminate.
Defined.









Lemma request_keeps_configuration (w : World) (c : Client) (now : Time)
    (path method : string) (params : gmap string string) :
  let c' := client_of (Api.request w c now path method params) in
  baseURL c' = baseURL c /\ apiKey c' = apiKey c /\ client c' = client c
  /\ match rateLimiter c with
     | None => rateLimiter c' = None
     | Some rl =>
         exists rl', rateLimiter c' = Some rl'
                     /\ max rl' = max rl /\ interval rl' = interval rl
     end.
Proof.
  cbv zeta. unfold Api.request, client_of.
  destruct (rateLimiter c) as [rl|] eqn:Hrl.
  - destruct (Allow_keeps_config rl now) as [Hmax Hint].
    destruct (Allow rl now) as [[[|]|] rl']; simpl in *;
      [destruct (Api.send w c path method params)| |]; simpl;
      repeat split; exists rl'; repeat split; assumption.
  - destruct (Api.send w c path method params). simpl.
    repeat split. exact Hrl.
Qed.

(** X15: calls never reconfigure the client.  After [request] or any API
    method, whatever it returned, the client has the same base URL, key and
    HTTP client; a client without a limiter still has none, and a limiter
    keeps its capacity and its interval: only [tokens] and [last] move. *)
Theorem calls_keep_configuration (w : World) (c : Client) (now : Time) :
  let kept {A : Type} (r : call A) : Prop :=
    baseURL (client_of r) = baseURL c
    /\ apiKey (client_of r) = apiKey c
    /\ client (client_of r) = client c
    /\ match rateLimiter c with
       | None => rateLimiter (client_of r) = None
       | Some rl =>
           exists rl', rateLimiter (client_of r) = Some rl'
                       /\ max rl' = max rl /\ interval rl' = interval rl
       end in
  (forall path method params, kept (Api.request w c now path method params))
  /\ kept (Api.Volume w c now)
  /\ kept (Api.Status w c now)
  /\ (forall from to address opts,
        kept (Api.Order w c now from to address opts))
  /\ (forall id, kept (Api.GetOrder w c now id))
  /\ (forall id, kept (Api.Refund w c now id))
  /\ (forall id, kept (Api.ConfirmRefund w c now id))
  /\ (forall id address, kept (Api.RevalidateAddress w c now id address))
  /\ (forall id, kept (Api.Remove w c now id)).
Proof.
  cbv zeta.
  assert (Hfin : forall (T : Type) on_err on_status on_decode
                        (decode : string -> lib_error + option T)
                        path method params,
             let r := Api.finish on_err on_status on_decode decode
                        (Api.request w c now path method params) in
             baseURL (client_of r) = baseURL c
             /\ apiKey (client_of r) = apiKey c
             /\ client (client_of r) = client c
             /\ match rateLimiter c with
                | None => rateLimiter (client_of r) = None
                | Some rl =>
                    exists rl', rateLimiter (client_of r) = Some rl'
                                /\ max rl' = max rl
                                /\ interval rl' = interval rl
                end).
  { intros. subst r.
    destruct (finish_panics_iff on_err on_status on_decode decode
                (Api.request w c now path method params)) as (_ & _ & Hc).
    rewrite Hc. apply request_keeps_configuration. }
  assert (Hearly : forall (T : Type) (err : error),
             let r := Api.early (T := T) c err in
             baseURL (client_of r) = baseURL c
             /\ apiKey (client_of r) = apiKey c
             /\ client (client_of r) = client c
             /\ match rateLimiter c with
                | None => rateLimiter (client_of r) = None
                | Some rl =>
                    exists rl', rateLimiter (client_of r) = Some rl'
                                /\ max rl' = max rl
                                /\ interval rl' = interval rl
                end).
  { intros T err. cbv zeta. unfold Api.early, client_of. simpl.
    repeat split. destruct (rateLimiter c) as [rl|]; [|reflexivity].
    exists rl. repeat split. }
  split; [intros; apply request_keeps_configuration|].
  split; [apply Hfin|]. split; [apply Hfin|].
  split.
  { intros. unfold Api.Order.
    destruct (String.eqb from "" || String.eqb to "" || String.eqb address "");
      [apply Hearly | apply Hfin]. }
  split.
  { intros. unfold Api.GetOrder.
    destruct (String.eqb id ""); [apply Hearly | apply Hfin]. }
  split.
  { intros. unfold Api.Refund.
    destruct (String.eqb id ""); [apply Hearly | apply Hfin]. }
  split.
  { intros. unfold Api.ConfirmRefund.
    destruct (String.eqb id ""); [apply Hearly | apply Hfin]. }
  split.
  { intros. unfold Api.RevalidateAddress.
    destruct (String.eqb id "" || String.eqb address "");
      [apply Hearly | apply Hfin]. }
  intros. unfold Api.Remove.
  destruct (String.eqb id ""); [apply Hearly | apply Hfin].
Qed.

(** * Further properties of goroutines sharing a limiter *)

Section Mutex.

Import Concurrent.

Lemma mutex_inv_sched (r0 : RateLimiter) (n : nat) (clock : Time)
    (cfg cfg' : config) :
  mutex_inv r0 n cfg -> sched clock cfg cfg' -> mutex_inv r0 n cfg'.
Proof.
  intros Hinv Hsched.
  destruct Hsched as [s s' p p' before after Hstep].
  unfold mutex_inv in *. cbn [mem threads] in *.
  destruct Hinv as (Hin & Hmax & Hint & Hlen).
  rewrite !count_app, ?length_app in *. cbn [count length] in *.
  destruct s as [lk r]. cbn [locked rl] in *.
  destruct p; cbn [step locked rl] in Hstep;
    repeat match type of Hstep with
           | context [if ?b then _ else _] => destruct b eqn:?
           end;
    inversion Hstep; subst s' p'; clear Hstep;
    cbn [locked rl set_tokens set_last tokens max interval last inside] in *;
    subst; repeat split; try assumption; try lia.
  destruct lk; lia.
Qed.

Lemma mutex_inv_reach (r0 : RateLimiter) (n : nat) (cfg : config) :
  reach_any (start r0 n) cfg -> mutex_inv r0 n cfg.
Proof.
  intros Hreach. remember (start r0 n) as cfg0 eqn:E.
  induction Hreach as [cfg|clock cfg cfg' cfg'' _ IH Hs].
  - subst cfg. unfold mutex_inv, start. simpl.
    rewrite length_replicate. repeat split.
    induction n as [|n IHn]; simpl; [reflexivity | exact IHn].
  - eapply mutex_inv_sched; [exact (IH E) | exact Hs].
Qed.

Lemma work_start (r0 : RateLimiter) (n : nat) :
  work (threads (start r0 n)) = (9 * n)%nat.
Proof.
  unfold start. simpl. induction n as [|n IH]; simpl; [reflexivity|].
  rewrite IH. lia.
Qed.

Lemma work_reach (r0 : RateLimiter) (n : nat) (cfg : config) :
  reach_any (start r0 n) cfg -> (work (threads cfg) <= 9 * n)%nat.
Proof.
  intros Hreach. remember (start r0 n) as cfg0 eqn:E.
  induction Hreach as [cfg|clock cfg cfg' cfg'' _ IH Hs].
  - subst cfg. rewrite work_start. lia.
  - pose proof (sched_work _ _ _ Hs). specialize (IH E). lia.
Qed.

(** X16: the mutex of [Allow], for any limiter and any clock.  [n]
    goroutines call [Allow] on one limiter, each reading the clock when it
    gets there; the limiter may be any, also one whose interval is zero.
    Whatever the scheduler does: at most one goroutine is between [Lock]
    and [Unlock], and the mutex is held exactly then; as long as a
    goroutine has not returned or panicked some goroutine can move, and
    every statement brings the end closer, at most [9 * n] statements in
    all; when all are done the mutex is free, also after a panic, because
    the unlock is deferred; and capacity and interval are as configured. *)
Theorem mutex_is_always_released (r0 : RateLimiter) (n : nat) (cfg : config) :
  reach_any (start r0 n) cfg ->
  (count inside (threads cfg) <= 1)%nat
  /\ (locked (mem cfg) = true <-> count inside (threads cfg) = 1%nat)
  /\ (all_done cfg \/ forall clock, exists cfg', sched clock cfg cfg')
  /\ (forall clock cfg', sched clock cfg cfg' ->
                         (work (threads cfg') < work (threads cfg))%nat)
  /\ (work (threads cfg) <= 9 * n)%nat
  /\ (all_done cfg -> locked (mem cfg) = false)
  /\ max (rl (mem cfg)) = max r0
  /\ interval (rl (mem cfg)) = interval r0.
Proof.
  intros Hreach.
  destruct (mutex_inv_reach r0 n cfg Hreach) as (Hin & Hmax & Hint & Hlen).
  pose proof (work_reach r0 n cfg Hreach) as Hwork.
  destruct cfg as [[lk r] l]. cbn [mem threads locked rl] in *.
  split; [destruct lk; lia|].
  split; [destruct lk; split; intros; (congruence || lia)|].
  split.
  { unfold all_done. cbn [threads].
    destruct (done_or_split l) as [Hdone|(before & p & after & -> & Hp)];
      [left; exact Hdone | right]. intros clock.
    destruct lk.
    - destruct (count_inside_split (before ++ p :: after) ltac:(lia))
        as (before' & q & after' & E & Hq).
      destruct (inside_can_step clock {| locked := true; rl := r |} q Hq)
        as (s' & q' & Hstep).
      rewrite E. eexists. apply sched_pick. exact Hstep.
    - rewrite count_app in Hin. simpl in Hin.
      destruct p; try discriminate; simpl in Hin; try lia.
      eexists. apply sched_pick. reflexivity. }
  split; [intros clock cfg'; apply sched_work|].
  split; [exact Hwork|].
  split; [|split; assumption].
  unfold all_done. cbn [threads]. intros Hdone.
  rewrite (all_done_outside l Hdone) in Hin. destruct lk; [discriminate|].
  reflexivity.
Qed.

Lemma mutex_is_always_released_witness :
  let cfg :=
    mkConfig {| locked := false;
                rl := {| tokens := 1; max := 1; interval := 0; last := 7 |} |}
             [Done Panicked; Done Panicked] in
  run 7 (start (NewRateLimiter 1 0 0) 2) (replicate 6 1%nat ++ replicate 6 0%nat)
  = Some cfg
  /\ locked (mem cfg) = false.
Proof.
  cbv zeta. split; [vm_compute; reflexivity|].
  assert (Hreach : reach_any (start (NewRateLimiter 1 0 0) 2)
                     (mkConfig
                        {| locked := false;
                           rl := {| tokens := 1; max := 1; interval := 0;
                                    last := 7 |} |}
                        [Done Panicked; Done Panicked])).
  { assert (Hgen : forall cfg cfg', reach 7 cfg cfg' -> reach_any cfg cfg').
    { intros cfg cfg' H.
      induction H as [cfg|cfg cfg1 cfg2 _ IH Hs];
        [apply reach_any_refl | exact (reach_any_step 7 _ _ _ IH Hs)]. }
    apply Hgen.
    apply (run_reach 7 (replicate 6 1%nat ++ replicate 6 0%nat)).
    vm_compute. reflexivity. }
  destruct (mutex_is_always_released _ _ _ Hreach)
    as (_ & _ & _ & _ & _ & Hfree & _).
  apply Hfree. repeat constructor.
Defined.

End Mutex.

(** X17: when a call is denied.  For a limiter within the invariant, with
    capacity at least one and a positive interval, called after an elapsed
    time that is a [time.Duration] and away from overflow: the call is
    denied exactly when the bucket is empty and less than one whole
    interval has elapsed since [last]; otherwise it is admitted. *)
Theorem denied_iff_empty_and_early (rl : RateLimiter) (now : Time) :
  bucket_inv rl -> 1 <= max rl -> 0 < interval rl ->
  last rl <= now -> now - last rl <= Int64.max_int ->
  max rl + Z.quot (now - last rl) (interval rl) <= Int64.max_int ->
  (fst (Allow rl now) = Returned false
   <-> tokens rl = 0 /\ now - last rl < interval rl)
  /\ (fst (Allow rl now) = Returned true
      <-> 0 < tokens rl \/ interval rl <= now - last rl).
Proof.
  unfold bucket_inv. intros Hinv Hm Hi Hnow Hdur Hfit.
  unfold Allow, elapsed_of.
  assert (He : Time_Sub now (last rl) = now - last rl).
  { replace now with (last rl + (now - last rl)) at 1 by lia.
    apply Time_Sub_fits. lia. }
  rewrite He.
  destruct (Z.eqb_spec (interval rl) 0); [lia|].
  assert (Hq : 0 <= Z.quot (now - last rl) (interval rl))
    by (apply Z.quot_pos; lia).
  assert (Hq0 : Z.quot (now - last rl) (interval rl) = 0
                <-> now - last rl < interval rl).
  { rewrite Z.quot_div_nonneg by lia. split.
    - intros H0. apply Z.div_small_iff in H0; lia.
    - intros Hlt. apply Z.div_small. lia. }
  unfold generated.
  rewrite (wrap64_id (Z.quot (now - last rl) (interval rl)))
    by (apply in_range_nonneg; lia).
  rewrite wrap64_id by (apply in_range_nonneg; lia).
  set (t1 := tokens rl + Z.quot (now - last rl) (interval rl)) in *.
  destruct (Z.ltb_spec (max rl) t1).
  - destruct (Z.ltb_spec 0 (max rl)); [|lia]. simpl. split.
    + split; [discriminate|]. intros [H1 H2]. apply Hq0 in H2. lia.
    + split; [|reflexivity]. intros _.
      destruct (Z.eq_dec (tokens rl) 0) as [E|E]; [right | left; lia].
      destruct (Z.lt_ge_cases (now - last rl) (interval rl)) as [Hlt|Hge];
        [apply Hq0 in Hlt; lia | exact Hge].
  - destruct (Z.ltb_spec 0 t1); simpl.
    + split.
      * split; [discriminate|]. intros [H1 H2]. apply Hq0 in H2. lia.
      * split; [|reflexivity]. intros _.
        destruct (Z.eq_dec (tokens rl) 0) as [E|E]; [right | left; lia].
        destruct (Z.lt_ge_cases (now - last rl) (interval rl)) as [Hlt|Hge];
          [apply Hq0 in Hlt; lia | exact Hge].
    + split.
      * split; [|reflexivity]. intros _. split; [lia|]. apply Hq0. lia.
      * split; [discriminate|]. intros [H1|H1]; [lia|].
        assert (Hne : Z.quot (now - last rl) (interval rl) <> 0); [|lia].
        intros Hz. apply Hq0 in Hz. lia.
Qed.

Lemma denied_iff_empty_and_early_witness :
  fst (Allow {| tokens := 0; max := 3; interval := 10; last := 100 |} 109)
  = Returned false.
Proof.
  assert (Hthm := denied_iff_empty_and_early
                    {| tokens := 0; max := 3; interval := 10; last := 100 |}
                    109).
  destruct Hthm as [Hdenied _].
  1-6: vm_compute; intuition discriminate.
  apply Hdenied. vm_compute. split; reflexivity.
Defined.
